(** * The WASM call boundary of the clang-format binding

    A shallow embedding of the two boundary files of the repository,

    - [src/wasi_binding.cc]: [wasm_format] returns the integer status and
      the caller reads pointer and length through accessors
      (module [WasiBinding] below);
    - the export-name variant: [wasm_format] returns the address of the
      [WasmResult] record (module [ExportName] below);

    together with the properties of the result slot, of the formatter
    singleton and of the cached version string.

    What the embedding leaves out: allocation failure and C++ exceptions
    ([malloc] answers a block, [new] an object); the temporaries of a call
    ([code_str], [filename_str], [result]) and whatever the engine allocates
    and frees while it runs, which are gone when the call returns; the
    layout of the globals in linear memory. *)

From Stdlib Require Import ZArith Lia.

From stdpp Require Import base option list strings gmap.

Local Open Scope Z_scope.

(** ** Machine integers

    The target is wasm32: [int] and [int32_t] are 32-bit two's complement,
    [size_t] is 32-bit unsigned. *)

Definition to_size_t (z : Z) : Z := z mod 2 ^ 32.

Definition to_int32 (z : Z) : Z := (z + 2 ^ 31) mod 2 ^ 32 - 2 ^ 31.

(** ** Pointers, bytes and the heap *)

Abbreviation byte := Byte.byte.

Abbreviation ptr := Z.
Definition nullptr : ptr := 0.

(** [std::string] values are their bytes; the length is explicit and a zero
    byte is ordinary content. *)
Definition str_size (s : list byte) : Z := Z.of_nat (length s).

(** The live blocks of [malloc], by base address.  The binding does no
    pointer arithmetic: every pointer it takes or returns is the base of a
    block. *)
Abbreviation Heap := (gmap Z (list byte)).

(** The calls the program makes to the C allocator, in order. *)
Inductive Event :=
  | Malloc (p : ptr) (n : Z)
  | Free (p : ptr).

(** What [malloc] answers.  The address is the allocator's choice, and may
    be one that was freed before; it is not null (allocation does not fail)
    and not the base of a block that is still live. *)
Class Allocator := {
  malloc_addr : Heap → Z → ptr;
  malloc_addr_nonnull : ∀ h n, malloc_addr h n ≠ nullptr;
  malloc_addr_fresh : ∀ h n, h !! malloc_addr h n = None
}.

(** ** The formatting engine ([lib.h])

    [lib.h] declares [ClangFormat], [Result] and [ResultStatus]; the file is
    not among the sources, so what the engine computes is a parameter. *)

Inductive ResultStatus := Success | Error | Unchanged.

Record Result := mkResult {
  result_status : ResultStatus;
  result_content : list byte
}.

(** Modelled from the spec: the class [ClangFormat] of [lib.h], which is
    missing from the sources.  The spec gives the handle a primary style
    name, a fallback style name (each an optional string) and opaque engine
    state. *)
Record ClangFormat {Opaque : Type} := mkClangFormat {
  primaryStyle : option (list byte);
  fallbackStyle : option (list byte);
  engine_state : Opaque
}.
Arguments ClangFormat : clear implicits.
Arguments mkClangFormat {Opaque}.

(** Modelled from the spec: [ClangFormat::with_style] of the missing
    [lib.h]; the setter copies the given byte range into the primary style
    field. *)
Definition with_style {O} (s : list byte) (f : ClangFormat O) : ClangFormat O :=
  mkClangFormat (Some s) (fallbackStyle f) (engine_state f).

(** Modelled from the spec: [ClangFormat::with_fallback_style] of the
    missing [lib.h]; the setter copies the given byte range into the
    fallback style field. *)
Definition with_fallback_style {O} (s : list byte) (f : ClangFormat O) : ClangFormat O :=
  mkClangFormat (primaryStyle f) (Some s) (engine_state f).

Class Engine := {
  Opaque : Type;
  (** the object [new ClangFormat()] builds *)
  ClangFormat_new : ClangFormat Opaque;
  (** [ClangFormat::format(code, filename)]: the result, and the engine
      state the call leaves behind *)
  ClangFormat_format : ClangFormat Opaque → list byte → list byte → Result * Opaque;
  (** [ClangFormat::version()] *)
  ClangFormat_version : list byte
}.

(** ** Running a call: a state monad with faults

    A call crashes where C++ gives it no meaning. *)

Inductive Fault :=
  | InvalidRead     (* a (pointer, length) pair that is not inside a live block *)
  | InvalidWrite    (* a store outside a live block *)
  | InvalidFree.    (* [free] of an address that is not a live block *)

Inductive Outcome (S A : Type) :=
  | Done (a : A) (s : S)
  | Crash (f : Fault).
Arguments Done {S A}.
Arguments Crash {S A}.

Definition M (S A : Type) : Type := S → Outcome S A.

Definition ret {S A} (a : A) : M S A := fun s => Done a s.

Definition bind {S A B} (m : M S A) (k : A → M S B) : M S B :=
  fun s => match m s with
           | Done a s' => k a s'
           | Crash f => Crash f
           end.

Definition crash {S A} (f : Fault) : M S A := fun _ => Crash f.
Definition gets {S A} (f : S → A) : M S A := fun s => Done (f s) s.
Definition modify {S} (f : S → S) : M S unit := fun s => Done tt (f s).

Declare Scope call_scope.
Delimit Scope call_scope with call.
Notation "x <- m ;; k" := (bind m (fun x => k))
  (at level 100, m at next level, right associativity) : call_scope.
Notation "m ;; k" := (bind m (fun _ => k))
  (at level 100, right associativity) : call_scope.

(** ** Program state *)

(** [struct WasmResult]. *)
Record WasmResult := mkWasmResult {
  status : Z;
  content_ptr : ptr;
  content_len : Z
}.

(** A constructed [std::string] with static storage duration: the address
    [c_str()] answers and the characters. *)
Record StdString := mkStdString {
  c_str : ptr;
  chars : list byte
}.

Section Boundary.
Context `{!Engine} `{!Allocator}.

(** The globals of the translation unit, the heap they point into, and the
    log of allocator calls. *)
Record State := mkState {
  g_formatter : option (ClangFormat Opaque);   (* [None] is [nullptr] *)
  g_last_result : WasmResult;
  version_ver : option StdString;       (* [static ver] of [wasm_version] *)
  version_len_ver : option StdString;   (* [static ver] of [wasm_version_len] *)
  heap : Heap;
  trace : list Event
}.

(** State at program start: both files zero-initialise [g_last_result]
    (one by the initialiser [{0, nullptr, 0}], one by static
    initialisation), [g_formatter] is [nullptr] and no function-local
    static is constructed. *)
Definition initial_state : State :=
  mkState None (mkWasmResult 0 nullptr 0) None None ∅ [].

Local Open Scope call_scope.

Abbreviation Call := (M State).

(** *** Assignments to the globals *)

Definition upd_g_formatter (f : option (ClangFormat Opaque)) (s : State) : State :=
  mkState f (g_last_result s) (version_ver s) (version_len_ver s) (heap s) (trace s).

Definition upd_g_last_result (r : WasmResult) (s : State) : State :=
  mkState (g_formatter s) r (version_ver s) (version_len_ver s) (heap s) (trace s).

Definition upd_version_ver (v : StdString) (s : State) : State :=
  mkState (g_formatter s) (g_last_result s) (Some v) (version_len_ver s)
    (heap s) (trace s).

Definition upd_version_len_ver (v : StdString) (s : State) : State :=
  mkState (g_formatter s) (g_last_result s) (version_ver s) (Some v)
    (heap s) (trace s).

Definition set_heap (h : Heap) (s : State) : State :=
  mkState (g_formatter s) (g_last_result s) (version_ver s) (version_len_ver s)
    h (trace s).

Definition log (e : Event) (s : State) : State :=
  mkState (g_formatter s) (g_last_result s) (version_ver s) (version_len_ver s)
    (heap s) (trace s ++ [e]).

Definition set_g_formatter (f : option (ClangFormat Opaque)) : Call unit :=
  modify (upd_g_formatter f).

Definition set_status (v : Z) : Call unit :=
  modify (fun s => let r := g_last_result s in
                   upd_g_last_result (mkWasmResult v (content_ptr r) (content_len r)) s).

Definition set_content_ptr (p : ptr) : Call unit :=
  modify (fun s => let r := g_last_result s in
                   upd_g_last_result (mkWasmResult (status r) p (content_len r)) s).

Definition set_content_len (n : Z) : Call unit :=
  modify (fun s => let r := g_last_result s in
                   upd_g_last_result (mkWasmResult (status r) (content_ptr r) n) s).

Definition set_version_ver (v : StdString) : Call unit :=
  modify (upd_version_ver v).

Definition set_version_len_ver (v : StdString) : Call unit :=
  modify (upd_version_len_ver v).

(** *** The C library *)

(** [malloc(n)]: a new block of [n] bytes.  Its contents are indeterminate;
    they are zero here, and the binding writes a block before it publishes
    it. *)
Definition malloc (n : Z) : Call ptr :=
  h <- gets heap ;;
  let p := malloc_addr h n in
  modify (set_heap (<[p := replicate (Z.to_nat n) Byte.x00]> h)) ;;
  modify (log (Malloc p n)) ;;
  ret p.

(** [free(p)]: nothing for a null pointer, otherwise the block at [p] ends;
    an address with no live block (never allocated, or freed already) has no
    defined behaviour. *)
Definition free (p : ptr) : Call unit :=
  if decide (p = nullptr) then ret tt
  else
    h <- gets heap ;;
    match h !! p with
    | Some _ => modify (set_heap (delete p h)) ;; modify (log (Free p))
    | None => crash InvalidFree
    end.

(** [memcpy(dst, src, n)] with [src] the characters of a string. *)
Definition memcpy (dst : ptr) (src : list byte) (n : Z) : Call unit :=
  h <- gets heap ;;
  match h !! dst with
  | Some old =>
      if decide (0 ≤ n ≤ str_size old)
      then modify (set_heap (<[dst := take (Z.to_nat n) src ++ drop (Z.to_nat n) old]> h))
      else crash InvalidWrite
  | None => crash InvalidWrite
  end.

(** The [n] bytes at [p]: [p] is the base of a live block of at least [n]
    bytes.  No byte is read when [n] is zero. *)
Definition read_bytes (h : Heap) (p : ptr) (n : Z) : option (list byte) :=
  if decide (n = 0) then Some []
  else match h !! p with
       | Some b => if decide (0 ≤ n ≤ str_size b) then Some (take (Z.to_nat n) b) else None
       | None => None
       end.

(** [std::string s(p, n)]: the constructor copies [n] bytes and looks for no
    terminator. *)
Definition std_string (p : ptr) (n : Z) : Call (list byte) :=
  h <- gets heap ;;
  match read_bytes h p n with
  | Some bs => ret bs
  | None => crash InvalidRead
  end.

(** Construction of a [static std::string] from [src]: the characters get
    storage of their own, followed by the terminator of [c_str()]. *)
Definition static_string (src : list byte) : Call StdString :=
  p <- malloc (str_size src + 1) ;;
  memcpy p (src ++ [Byte.x00]) (str_size src + 1) ;;
  ret (mkStdString p src).

(** *** Functions the two files share word for word *)

(** [void* wasm_alloc(size_t size)] *)
Definition wasm_alloc (size : Z) : Call ptr :=
  malloc size.

(** [void wasm_dealloc(void* ptr)] *)
Definition wasm_dealloc (p : ptr) : Call unit :=
  free p.

(** [void wasm_init()] *)
Definition wasm_init : Call unit :=
  f <- gets g_formatter ;;
  match f with
  | None => set_g_formatter (Some ClangFormat_new)
  | Some _ => ret tt
  end.

(** [char* wasm_get_result_ptr()] *)
Definition wasm_get_result_ptr : Call ptr :=
  r <- gets g_last_result ;; ret (content_ptr r).

(** [wasm_get_result_len()] *)
Definition wasm_get_result_len : Call Z :=
  r <- gets g_last_result ;; ret (content_len r).

(** [void wasm_free_result()] *)
Definition wasm_free_result : Call unit :=
  r <- gets g_last_result ;;
  if decide (content_ptr r ≠ nullptr) then
    free (content_ptr r) ;;
    set_content_ptr nullptr ;;
    set_content_len 0
  else ret tt.

(** [const char* wasm_version()] *)
Definition wasm_version : Call ptr :=
  v <- gets version_ver ;;
  match v with
  | Some ver => ret (c_str ver)
  | None =>
      ver <- static_string ClangFormat_version ;;
      set_version_ver ver ;;
      ret (c_str ver)
  end.

(** [wasm_version_len()]; the result type is a 32-bit [int]. *)
Definition wasm_version_len : Call Z :=
  v <- gets version_len_ver ;;
  match v with
  | Some ver => ret (to_int32 (str_size (chars ver)))
  | None =>
      ver <- static_string ClangFormat_version ;;
      set_version_len_ver ver ;;
      ret (to_int32 (str_size (chars ver)))
  end.

(** The integer [wasm_format] stores for a [ResultStatus]. *)
Definition status_code (st : ResultStatus) : Z :=
  match st with
  | Success => 0
  | Error => 1
  | Unchanged => 2
  end.

(** [g_formatter->format(code_str, filename_str)] on the object [fmt] behind
    [g_formatter]: the call answers a [Result] and may change the engine
    state of the object; the style fields are the setters' to write. *)
Definition g_formatter_format (fmt : ClangFormat Opaque)
    (code_str filename_str : list byte) : Call Result :=
  let (result, o) := ClangFormat_format fmt code_str filename_str in
  set_g_formatter (Some (mkClangFormat (primaryStyle fmt) (fallbackStyle fmt) o)) ;;
  ret result.

(** The host writes bytes of its own into a block of linear memory. *)
Definition host_store (p : ptr) (bs : list byte) : Call unit :=
  memcpy p bs (str_size bs).

End Boundary.

(** ** [src/wasi_binding.cc]: lengths are [int], [wasm_format] returns the
    status *)
Module WasiBinding.
Section Exports.
Context `{!Engine} `{!Allocator}.
Local Open Scope call_scope.

(** [int wasm_set_style(const char* style, int style_len)]; the string
    constructor takes a [size_t], so the [int] is converted. *)
Definition wasm_set_style (style : ptr) (style_len : Z) : M State Z :=
  f <- gets g_formatter ;;
  match f with
  | None => ret (-1)
  | Some fmt =>
      s <- std_string style (to_size_t style_len) ;;
      set_g_formatter (Some (with_style s fmt)) ;;
      ret 0
  end.

(** [int wasm_set_fallback_style(const char* style, int style_len)] *)
Definition wasm_set_fallback_style (style : ptr) (style_len : Z) : M State Z :=
  f <- gets g_formatter ;;
  match f with
  | None => ret (-1)
  | Some fmt =>
      s <- std_string style (to_size_t style_len) ;;
      set_g_formatter (Some (with_fallback_style s fmt)) ;;
      ret 0
  end.

(** [int wasm_format(const char* code, int code_len,
                     const char* filename, int filename_len)] *)
Definition wasm_format (code : ptr) (code_len : Z)
    (filename : ptr) (filename_len : Z) : M State Z :=
  f <- gets g_formatter ;;
  match f with
  | None =>
      set_status 1 ;;
      set_content_ptr nullptr ;;
      set_content_len 0 ;;
      ret 1
  | Some fmt =>
      (* Free previous result content if any *)
      r0 <- gets g_last_result ;;
      (if decide (content_ptr r0 ≠ nullptr) then
         free (content_ptr r0) ;;
         set_content_ptr nullptr
       else ret tt) ;;
      code_str <- std_string code (to_size_t code_len) ;;
      filename_str <- std_string filename (to_size_t filename_len) ;;
      result <- g_formatter_format fmt code_str filename_str ;;
      set_status (status_code (result_status result)) ;;
      (if decide (result_content result ≠ []) then
         set_content_len (to_int32 (str_size (result_content result))) ;;
         p <- malloc (str_size (result_content result)) ;;
         set_content_ptr p ;;
         memcpy p (result_content result) (str_size (result_content result))
       else
         set_content_ptr nullptr ;;
         set_content_len 0) ;;
      r <- gets g_last_result ;;
      ret (status r)
  end.

End Exports.
End WasiBinding.

(** ** The export-name variant: lengths are [size_t], [wasm_format] returns
    [&g_last_result] *)
Module ExportName.
Section Exports.
Context `{!Engine} `{!Allocator}.
Local Open Scope call_scope.

(** The one [WasmResult] object a returned [WasmResult*] can point to. *)
Inductive WasmResultPtr := addr_g_last_result.

(** Reading the record behind the pointer in a given state. *)
Definition deref (p : WasmResultPtr) (s : State) : WasmResult :=
  match p with addr_g_last_result => g_last_result s end.

(** [int wasm_set_style(const char* style, size_t style_len)] *)
Definition wasm_set_style (style : ptr) (style_len : Z) : M State Z :=
  f <- gets g_formatter ;;
  match f with
  | None => ret (-1)
  | Some fmt =>
      s <- std_string style style_len ;;
      set_g_formatter (Some (with_style s fmt)) ;;
      ret 0
  end.

(** [int wasm_set_fallback_style(const char* style, size_t style_len)] *)
Definition wasm_set_fallback_style (style : ptr) (style_len : Z) : M State Z :=
  f <- gets g_formatter ;;
  match f with
  | None => ret (-1)
  | Some fmt =>
      s <- std_string style style_len ;;
      set_g_formatter (Some (with_fallback_style s fmt)) ;;
      ret 0
  end.

(** [WasmResult* wasm_format(const char* code, size_t code_len,
                             const char* filename, size_t filename_len)] *)
Definition wasm_format (code : ptr) (code_len : Z)
    (filename : ptr) (filename_len : Z) : M State WasmResultPtr :=
  f <- gets g_formatter ;;
  match f with
  | None =>
      set_status 1 ;;
      set_content_ptr nullptr ;;
      set_content_len 0 ;;
      ret addr_g_last_result
  | Some fmt =>
      (* Free previous result content if any *)
      r0 <- gets g_last_result ;;
      (if decide (content_ptr r0 ≠ nullptr) then
         free (content_ptr r0) ;;
         set_content_ptr nullptr
       else ret tt) ;;
      code_str <- std_string code code_len ;;
      filename_str <- std_string filename filename_len ;;
      result <- g_formatter_format fmt code_str filename_str ;;
      set_status (status_code (result_status result)) ;;
      (if decide (result_content result ≠ []) then
         set_content_len (to_int32 (str_size (result_content result))) ;;
         p <- malloc (str_size (result_content result)) ;;
         set_content_ptr p ;;
         memcpy p (result_content result) (str_size (result_content result))
       else
         set_content_ptr nullptr ;;
         set_content_len 0) ;;
      ret addr_g_last_result
  end.

(** [int32_t wasm_get_result_status()] *)
Definition wasm_get_result_status : M State Z :=
  r <- gets g_last_result ;; ret (status r).

End Exports.
End ExportName.

(** ** Sequences of calls

    What a caller can do to the module state: the exports that write it, and
    a store of its own into linear memory.  The accessors
    [wasm_get_result_ptr], [wasm_get_result_len] and (export-name file)
    [wasm_get_result_status] only read. *)

Inductive Variant :=
  | wasi_binding     (* [src/wasi_binding.cc] *)
  | export_name.     (* the export-name file *)

Inductive Op :=
  | Alloc (size : Z)
  | Dealloc (p : ptr)
  | Init
  | SetStyle (style : ptr) (style_len : Z)
  | SetFallbackStyle (style : ptr) (style_len : Z)
  | Format (code : ptr) (code_len : Z) (filename : ptr) (filename_len : Z)
  | FreeResult
  | Version
  | VersionLen
  | HostStore (p : ptr) (bs : list byte).

Definition is_init (o : Op) : bool :=
  match o with Init => true | _ => false end.

(** No call of the sequence is [wasm_init]. *)
Definition never_init (ops : list Op) : bool :=
  forallb (fun o => negb (is_init o)) ops.

Section Runs.
Context `{!Engine} `{!Allocator}.
Local Open Scope call_scope.

Definition void {A} (m : M State A) : M State unit := _ <- m ;; ret tt.

(** The length that reaches the [std::string] constructor: an [int]
    argument of [wasi_binding.cc] is converted to [size_t]. *)
Definition arg_len (v : Variant) (n : Z) : Z :=
  match v with
  | wasi_binding => to_size_t n
  | export_name => n
  end.

Definition step (v : Variant) (o : Op) : M State unit :=
  match o with
  | Alloc n => void (wasm_alloc n)
  | Dealloc p => wasm_dealloc p
  | Init => wasm_init
  | SetStyle p n =>
      match v with
      | wasi_binding => void (WasiBinding.wasm_set_style p n)
      | export_name => void (ExportName.wasm_set_style p n)
      end
  | SetFallbackStyle p n =>
      match v with
      | wasi_binding => void (WasiBinding.wasm_set_fallback_style p n)
      | export_name => void (ExportName.wasm_set_fallback_style p n)
      end
  | Format c cl f fl =>
      match v with
      | wasi_binding => void (WasiBinding.wasm_format c cl f fl)
      | export_name => void (ExportName.wasm_format c cl f fl)
      end
  | FreeResult => wasm_free_result
  | Version => void wasm_version
  | VersionLen => void wasm_version_len
  | HostStore p bs => host_store p bs
  end.

Fixpoint run (v : Variant) (ops : list Op) : M State unit :=
  match ops with
  | [] => ret tt
  | o :: ops' => step v o ;; run v ops'
  end.

End Runs.

(** ** Vocabulary of the statements *)

Definition is_format (o : Op) : bool :=
  match o with Format _ _ _ _ => true | _ => false end.

Definition only_format (ops : list Op) : bool := forallb is_format ops.

(** Replaying a log of allocator calls against the set of blocks the
    binding owns: [None] where a block is freed that is not owned (a double
    free) or handed out while still owned. *)
Fixpoint replay (owned : gset Z) (t : list Event) : option (gset Z) :=
  match t with
  | [] => Some owned
  | Malloc p _ :: t' =>
      if decide (p ∈ owned) then None else replay ({[p]} ∪ owned) t'
  | Free p :: t' =>
      if decide (p ∈ owned) then replay (owned ∖ {[p]}) t' else None
  end.

(** The allocator calls of one [wasm_format] call that found [p0] in the
    slot and left [p1] there, [n1] being the length it stored. *)
Definition format_events (p0 p1 : ptr) (n1 : Z) : list Event :=
  (if decide (p0 = nullptr) then [] else [Free p0])
  ++ (if decide (p1 = nullptr) then [] else [Malloc p1 n1]).

Section Vocabulary.
Context `{!Engine} `{!Allocator}.

(** The buffer of the slot, when it has one, is a live block. *)
Definition slot_live (s : State) : Prop :=
  content_ptr (g_last_result s) = nullptr
  ∨ is_Some (heap s !! content_ptr (g_last_result s)).

(** The invariant of the slot: a buffer only with a positive length, and no
    buffer with length zero. *)
Definition slot_ok (r : WasmResult) : Prop :=
  (content_ptr r ≠ nullptr → 0 < content_len r)
  ∧ (content_len r = 0 → content_ptr r = nullptr).

(** The ownership rule on the caller's side: a pointer handed to
    [wasm_dealloc] is not the buffer the slot holds. *)
Definition keeps_off_slot (o : Op) (s : State) : bool :=
  match o with
  | Dealloc p => bool_decide (p = nullptr ∨ p ≠ content_ptr (g_last_result s))
  | _ => true
  end.

(** A run in which every call respects that rule in the state it is made
    in (vacuous from the point where a call crashes). *)
Fixpoint owner_respected (v : Variant) (ops : list Op) (s : State) : bool :=
  match ops with
  | [] => true
  | o :: ops' =>
      keeps_off_slot o s
      && match step v o s with
         | Done _ s1 => owner_respected v ops' s1
         | Crash _ => true
         end
  end.

(** An empty slot has length zero. *)
Definition null_is_empty (r : WasmResult) : Prop :=
  content_ptr r = nullptr → content_len r = 0.

(** The blocks the slot holds: its buffer, if it has one. *)
Definition slot_buffers (s : State) : gset Z :=
  if decide (content_ptr (g_last_result s) = nullptr) then ∅
  else {[content_ptr (g_last_result s)]}.

(** The engine's output fits the 32-bit [content_len] field: on wasm32 a
    string and its copy of 2 GiB each do not fit the address space. *)
Definition engine_fits_int32 : Prop :=
  ∀ fmt code_str filename_str,
    str_size (result_content (ClangFormat_format fmt code_str filename_str).1) < 2 ^ 31.

(** The state once the buffer of the slot was released. *)
Definition after_release (s : State) : State :=
  let r := g_last_result s in
  mkState (g_formatter s) (mkWasmResult (status r) nullptr (content_len r))
    (version_ver s) (version_len_ver s)
    (delete (content_ptr r) (heap s)) (trace s ++ [Free (content_ptr r)]).

(** The state once the engine's result was stored. *)
Definition after_store (fmt : ClangFormat Opaque) (res : Result) (o : Opaque)
    (s : State) : State :=
  let c := result_content res in
  let q := malloc_addr (heap s) (str_size c) in
  let fmt' := Some (mkClangFormat (primaryStyle fmt) (fallbackStyle fmt) o) in
  let code := status_code (result_status res) in
  if decide (c ≠ []) then
    mkState fmt' (mkWasmResult code q (to_int32 (str_size c)))
      (version_ver s) (version_len_ver s)
      (<[q := c]> (heap s)) (trace s ++ [Malloc q (str_size c)])
  else
    mkState fmt' (mkWasmResult code nullptr 0)
      (version_ver s) (version_len_ver s) (heap s) (trace s).

(** The first block of the initialised path. *)
Definition release_previous (s : State) : Outcome State unit :=
  let p := content_ptr (g_last_result s) in
  if decide (p = nullptr) then Done tt s
  else match heap s !! p with
       | Some _ => Done tt (after_release s)
       | None => Crash InvalidFree
       end.

(** What a style setter does, for the setter [set] of the handle and the
    length [len] that reaches the string constructor. *)
Definition set_style_outcome
    (set : list byte → ClangFormat Opaque → ClangFormat Opaque)
    (style : ptr) (len : Z) (s : State) : Outcome State Z :=
  match g_formatter s with
  | None => Done (-1) s
  | Some fmt =>
      match read_bytes (heap s) style len with
      | Some bs => Done 0 (upd_g_formatter (Some (set bs fmt)) s)
      | None => Crash InvalidRead
      end
  end.

(** The property as the specification words it: whenever a [wasm_format]
    call ends with status 1, the slot is empty. *)
Definition error_implies_empty_slot (v : Variant) (s : State)
    (c : ptr) (cl : Z) (f : ptr) (fl : Z) : Prop :=
  ∀ s', step v (Format c cl f fl) s = Done tt s' →
        status (g_last_result s') = 1 →
        wasm_get_result_len s' = Done 0 s'
        ∧ wasm_get_result_ptr s' = Done nullptr s'.

(** The heap once [wasm_format] has released the buffer of the slot, which
    it does before it copies its inputs. *)
Definition heap_after_release (s : State) : Heap :=
  if decide (content_ptr (g_last_result s) = nullptr) then heap s
  else delete (content_ptr (g_last_result s)) (heap s).

(** The input ranges of a [wasm_format] call are valid where the call reads
    them. *)
Definition inputs_readable (v : Variant) (o : Op) (s : State) : bool :=
  match o with
  | Format c cl f fl =>
      bool_decide (is_Some (read_bytes (heap_after_release s) c (arg_len v cl)))
      && bool_decide (is_Some (read_bytes (heap_after_release s) f (arg_len v fl)))
  | _ => true
  end.

(** Every call of the run is made with valid input ranges. *)
Fixpoint all_readable (v : Variant) (ops : list Op) (s : State) : bool :=
  match ops with
  | [] => true
  | o :: ops' =>
      inputs_readable v o s
      && match step v o s with
         | Done _ s1 => all_readable v ops' s1
         | Crash _ => true
         end
  end.

End Vocabulary.

(** * Properties *)

Section Properties.
Context `{!Engine} `{!Allocator}.
Local Open Scope call_scope.

(** Unfolding of a call down to matches on the state. *)
Ltac unfold_call :=
  unfold step, void, ExportName.wasm_format, WasiBinding.wasm_format,
    ExportName.wasm_set_style, WasiBinding.wasm_set_style,
    ExportName.wasm_set_fallback_style, WasiBinding.wasm_set_fallback_style,
    ExportName.wasm_get_result_status, wasm_get_result_ptr, wasm_get_result_len,
    wasm_version, wasm_version_len, host_store,
    wasm_free_result, wasm_init, wasm_alloc, wasm_dealloc,
    g_formatter_format, static_string, malloc, free, memcpy, std_string,
    set_status, set_content_ptr, set_content_len, set_g_formatter,
    set_version_ver, set_version_len_ver,
    bind, gets, modify, ret, crash in *.

(** ** The heap after a block was allocated and filled *)

Lemma str_size_nonneg (l : list byte) : 0 ≤ str_size l.
Proof. unfold str_size. lia. Qed.

Lemma str_size_zero (l : list byte) : str_size l = 0 ↔ l = [].
Proof. unfold str_size. destruct l; simpl; split; (done || lia). Qed.

Lemma fill_block (h : Heap) (q : ptr) (c : list byte) :
  <[q := take (Z.to_nat (str_size c)) c
           ++ drop (Z.to_nat (str_size c)) (replicate (Z.to_nat (str_size c)) Byte.x00)]>
    (<[q := replicate (Z.to_nat (str_size c)) Byte.x00]> h)
  = <[q := c]> h.
Proof.
  unfold str_size. rewrite Nat2Z.id, insert_insert_eq.
  rewrite firstn_all, drop_ge by (rewrite length_replicate; lia).
  by rewrite app_nil_r.
Qed.

(** ** [wasm_format] in closed form *)

Lemma export_format_uninit s c cl f fl :
  g_formatter s = None →
  ExportName.wasm_format c cl f fl s
  = Done ExportName.addr_g_last_result
      (upd_g_last_result (mkWasmResult 1 nullptr 0) s).
Proof. intros Hf. unfold_call. by rewrite Hf. Qed.

(** Both files share the body of the initialised path; so do the proofs. *)
Ltac closed_form Hf :=
  unfold release_previous;
  unfold bind at 1, gets at 1; rewrite Hf;
  unfold bind at 1, gets at 1; unfold bind at 1;
  match goal with |- context [decide (content_ptr (g_last_result ?s) ≠ nullptr)] =>
    destruct (decide (content_ptr (g_last_result s) ≠ nullptr)) as [?|Hp];
    [ rewrite decide_False by done;
      unfold_call; rewrite decide_False by done;
      destruct (heap s !! content_ptr (g_last_result s)); [simpl|done];
      fold (after_release s)
    | apply dec_stable in Hp; rewrite decide_True by done;
      unfold_call; simpl ]
  end;
  (match goal with |- context [read_bytes ?h ?c ?cl] =>
     destruct (read_bytes h c cl) as [?|]; [simpl|done] end;
   match goal with |- context [read_bytes ?h ?f ?fl] =>
     destruct (read_bytes h f fl) as [?|]; [simpl|done] end;
   match goal with |- context [ClangFormat_format ?fmt ?a ?b] =>
     destruct (ClangFormat_format fmt a b) as [? ?]; simpl end;
   unfold after_store; case_decide; simpl; [|done];
   rewrite lookup_insert_eq;
   rewrite decide_True by (unfold str_size; rewrite length_replicate; lia);
   simpl; by rewrite fill_block).

Lemma export_format_init s fmt c cl f fl :
  g_formatter s = Some fmt →
  ExportName.wasm_format c cl f fl s
  = match release_previous s with
    | Crash e => Crash e
    | Done _ s1 =>
        match read_bytes (heap s1) c cl with
        | None => Crash InvalidRead
        | Some code_str =>
            match read_bytes (heap s1) f fl with
            | None => Crash InvalidRead
            | Some filename_str =>
                Done ExportName.addr_g_last_result
                  (after_store fmt
                     (ClangFormat_format fmt code_str filename_str).1
                     (ClangFormat_format fmt code_str filename_str).2 s1)
            end
        end
    end.
Proof.
  intros Hf. unfold ExportName.wasm_format. closed_form Hf.
Qed.

Lemma wasi_format_uninit s c cl f fl :
  g_formatter s = None →
  WasiBinding.wasm_format c cl f fl s
  = Done 1 (upd_g_last_result (mkWasmResult 1 nullptr 0) s).
Proof. intros Hf. unfold_call. by rewrite Hf. Qed.

Lemma wasi_format_init s fmt c cl f fl :
  g_formatter s = Some fmt →
  WasiBinding.wasm_format c cl f fl s
  = match release_previous s with
    | Crash e => Crash e
    | Done _ s1 =>
        match read_bytes (heap s1) c (to_size_t cl) with
        | None => Crash InvalidRead
        | Some code_str =>
            match read_bytes (heap s1) f (to_size_t fl) with
            | None => Crash InvalidRead
            | Some filename_str =>
                Done (status_code (result_status
                                     (ClangFormat_format fmt code_str filename_str).1))
                  (after_store fmt
                     (ClangFormat_format fmt code_str filename_str).1
                     (ClangFormat_format fmt code_str filename_str).2 s1)
            end
        end
    end.
Proof.
  intros Hf. unfold WasiBinding.wasm_format. closed_form Hf.
Qed.

(** ** The two files agree *)

(** [wasi_binding.cc] does to the state what the export-name file does, and
    returns the [status] field of the record the other returns the address
    of.  The [int] lengths reach the string constructor as [size_t]. *)
Lemma wasi_format_as_export s c cl f fl :
  WasiBinding.wasm_format c cl f fl s
  = match ExportName.wasm_format c (to_size_t cl) f (to_size_t fl) s with
    | Done r s' => Done (status (ExportName.deref r s')) s'
    | Crash e => Crash e
    end.
Proof.
  destruct (g_formatter s) as [fmt|] eqn:Hf.
  - rewrite (wasi_format_init _ _ _ _ _ _ Hf), (export_format_init _ _ _ _ _ _ Hf).
    destruct (release_previous s) as [[] s1|]; [|done].
    destruct (read_bytes _ c _); [|done].
    destruct (read_bytes _ f _); [|done].
    f_equal. unfold after_store. by case_decide.
  - by rewrite wasi_format_uninit, export_format_uninit.
Qed.

Lemma wasi_set_style_as_export s p n :
  WasiBinding.wasm_set_style p n s = ExportName.wasm_set_style p (to_size_t n) s.
Proof. reflexivity. Qed.

Lemma wasi_set_fallback_style_as_export s p n :
  WasiBinding.wasm_set_fallback_style p n s
  = ExportName.wasm_set_fallback_style p (to_size_t n) s.
Proof. reflexivity. Qed.

(** ** What one call changes *)

Lemma release_previous_inv s s1 :
  release_previous s = Done tt s1 →
  (content_ptr (g_last_result s) = nullptr ∧ s1 = s)
  ∨ (content_ptr (g_last_result s) ≠ nullptr
     ∧ is_Some (heap s !! content_ptr (g_last_result s))
     ∧ s1 = after_release s).
Proof.
  unfold release_previous. intros Hr.
  case_decide; [left; by simplify_eq|right].
  destruct (heap s !! _) eqn:Hl; by simplify_eq.
Qed.

(** A [Format] step is the early return, or a release followed by a store
    of what the engine answered. *)
Lemma step_format_inv v c cl f fl s s' :
  step v (Format c cl f fl) s = Done tt s' →
  (g_formatter s = None ∧ s' = upd_g_last_result (mkWasmResult 1 nullptr 0) s)
  ∨ (∃ fmt s1 code_str filename_str,
       g_formatter s = Some fmt
       ∧ release_previous s = Done tt s1
       ∧ read_bytes (heap s1) c (arg_len v cl) = Some code_str
       ∧ read_bytes (heap s1) f (arg_len v fl) = Some filename_str
       ∧ s' = after_store fmt
                (ClangFormat_format fmt code_str filename_str).1
                (ClangFormat_format fmt code_str filename_str).2 s1).
Proof.
  intros Hs.
  assert (∃ r, ExportName.wasm_format c (arg_len v cl) f (arg_len v fl) s
               = Done r s') as [r Hr].
  { destruct v; simpl in Hs; unfold void, bind in Hs.
    - rewrite wasi_format_as_export in Hs.
      destruct (ExportName.wasm_format _ _ _ _ s) as [r s2|]; [|done].
      unfold ret in Hs. simplify_eq. by exists r.
    - destruct (ExportName.wasm_format _ _ _ _ s) as [r s2|]; [|done].
      unfold ret in Hs. simplify_eq. by exists r. }
  destruct (g_formatter s) as [fmt|] eqn:Hf.
  - right. rewrite (export_format_init _ _ _ _ _ _ Hf) in Hr.
    destruct (release_previous s) as [[] s1|]; [|done].
    destruct (read_bytes _ c _) as [code_str|] eqn:Hc; [|done].
    destruct (read_bytes _ f _) as [filename_str|] eqn:Hn; [|done].
    simplify_eq. by exists fmt, s1, code_str, filename_str.
  - left. rewrite export_format_uninit in Hr by done. by simplify_eq.
Qed.

(** Calls other than [Format] and [FreeResult] leave the slot alone, and of
    those only [Init] and the style setters write the handle. *)
Lemma step_frame v o s s' :
  step v o s = Done tt s' →
  match o with
  | Format _ _ _ _ | FreeResult => True
  | Init | SetStyle _ _ | SetFallbackStyle _ _ =>
      g_last_result s' = g_last_result s
  | _ => g_last_result s' = g_last_result s ∧ g_formatter s' = g_formatter s
  end.
Proof.
  intros Hs. destruct o; try done; try destruct v;
    unfold_call; simpl in Hs;
    repeat (case_match; simpl in *; try discriminate); by simplify_eq.
Qed.

(** ** Runs *)

Lemma run_cons v o ops s :
  run v (o :: ops) s
  = match step v o s with
    | Done _ s1 => run v ops s1
    | Crash e => Crash e
    end.
Proof. reflexivity. Qed.

Lemma run_app v ops1 ops2 s :
  run v (ops1 ++ ops2) s
  = match run v ops1 s with
    | Done _ s1 => run v ops2 s1
    | Crash e => Crash e
    end.
Proof.
  revert s. induction ops1 as [|o ops1 IH]; intros s; [done|].
  rewrite <- app_comm_cons, !run_cons. destruct (step v o s); [apply IH|done].
Qed.

(** A property every step keeps holds at the end of a run. *)
Lemma run_invariant (P : State → Prop) v :
  (∀ o s s', P s → step v o s = Done tt s' → P s') →
  ∀ ops s s', P s → run v ops s = Done tt s' → P s'.
Proof.
  intros Hstep ops. induction ops as [|o ops IH]; intros s s' HP Hrun.
  - unfold run, ret in Hrun. by simplify_eq.
  - rewrite run_cons in Hrun.
    destruct (step v o s) as [[] s1|] eqn:Hs; [|done]. eauto.
Qed.

(** ** The formatter singleton *)

Lemma wasm_init_done s :
  wasm_init s
  = Done tt match g_formatter s with
            | None => upd_g_formatter (Some ClangFormat_new) s
            | Some _ => s
            end.
Proof. unfold_call. by destruct (g_formatter s). Qed.

(** Only [wasm_init] writes a null [g_formatter]. *)
Lemma step_keeps_uninit v o s s' :
  is_init o = false →
  g_formatter s = None → step v o s = Done tt s' → g_formatter s' = None.
Proof.
  intros Ho Hf Hs. destruct o; try done.
  1,2,7,8,9: by (apply step_frame in Hs as [_ ->]).
  - destruct v; unfold_call; rewrite Hf in Hs; by simplify_eq.
  - destruct v; unfold_call; rewrite Hf in Hs; by simplify_eq.
  - apply step_format_inv in Hs as [[_ ->]|(fmt & ? & ? & ? & ? & _)]; [done|congruence].
  - unfold_call. case_decide; [|by simplify_eq].
    repeat (case_match; simpl in *; try discriminate); by simplify_eq.
Qed.

Lemma never_init_uninit v ops s s' :
  never_init ops = true →
  g_formatter s = None → run v ops s = Done tt s' → g_formatter s' = None.
Proof.
  revert s. induction ops as [|o ops IH]; intros s Hn Hf Hrun.
  - unfold run, ret in Hrun. by simplify_eq.
  - simpl in Hn. apply andb_prop in Hn as [Ho Hn]. apply negb_true_iff in Ho.
    rewrite run_cons in Hrun.
    destruct (step v o s) as [[] s1|] eqn:Hs; [|done].
    eapply IH; [done| |done]. by eapply step_keeps_uninit.
Qed.

(** Once constructed, the singleton stays. *)
Lemma step_keeps_init v o s s' :
  g_formatter s ≠ None → step v o s = Done tt s' → g_formatter s' ≠ None.
Proof.
  intros Hf Hs. destruct o.
  1,2,8,9,10: by (apply step_frame in Hs as [_ ->]).
  - simpl in Hs. rewrite wasm_init_done in Hs.
    destruct (g_formatter s) eqn:E; simplify_eq; simpl; congruence.
  - destruct v; unfold_call; destruct (g_formatter s); try done;
      repeat (case_match; simpl in *; try discriminate); by simplify_eq.
  - destruct v; unfold_call; destruct (g_formatter s); try done;
      repeat (case_match; simpl in *; try discriminate); by simplify_eq.
  - apply step_format_inv in Hs as [[? _]|(fmt & ? & ? & ? & ? & _ & _ & _ & ->)]; [done|].
    unfold after_store. by case_decide.
  - unfold_call. case_decide; [|by simplify_eq].
    repeat (case_match; simpl in *; try discriminate); by simplify_eq.
Qed.

(** ** The early return of [wasm_format] *)

(** C2: a [wasm_format] call made when no call of the run so far was
    [wasm_init] returns at once with status 1 (Error): in both files the
    state it leaves is the state it found with the slot set to
    [(1, nullptr, 0)]; heap and allocator log are untouched. *)
Theorem format_before_initialize v ops s code code_len filename filename_len :
  never_init ops = true →
  run v ops initial_state = Done tt s →
  WasiBinding.wasm_format code code_len filename filename_len s
    = Done 1 (upd_g_last_result (mkWasmResult 1 nullptr 0) s)
  ∧ ExportName.wasm_format code code_len filename filename_len s
    = Done ExportName.addr_g_last_result
        (upd_g_last_result (mkWasmResult 1 nullptr 0) s)
  ∧ wasm_get_result_ptr (upd_g_last_result (mkWasmResult 1 nullptr 0) s)
    = Done nullptr (upd_g_last_result (mkWasmResult 1 nullptr 0) s)
  ∧ wasm_get_result_len (upd_g_last_result (mkWasmResult 1 nullptr 0) s)
    = Done 0 (upd_g_last_result (mkWasmResult 1 nullptr 0) s).
Proof.
  intros Hn Hrun.
  assert (g_formatter s = None) as Hf
    by (by apply (never_init_uninit v ops initial_state s)).
  split; [by apply wasi_format_uninit|].
  split; [by apply export_format_uninit|by split].
Qed.

(** ** The two boundary conventions *)

(** C4: for every state and every input, [wasm_format] of
    [wasi_binding.cc] (integer status returned) and [wasm_format] of the
    export-name file (address of the record returned) end in the same state,
    so every accessor reads the same slot; the integer the first returns is
    the [status] field the second points to; and where one crashes so does
    the other, with the same fault.  The lengths are the same 32 bits, read
    as [int] by the first and as [size_t] by the second. *)
Theorem conventions_leave_same_slot s code code_len filename filename_len :
  match WasiBinding.wasm_format code code_len filename filename_len s,
        ExportName.wasm_format code (to_size_t code_len)
          filename (to_size_t filename_len) s with
  | Done st s1, Done r s2 =>
      s1 = s2 ∧ st = status (ExportName.deref r s2)
      ∧ wasm_get_result_ptr s1 = wasm_get_result_ptr s2
      ∧ wasm_get_result_len s1 = wasm_get_result_len s2
  | Crash e1, Crash e2 => e1 = e2
  | _, _ => False
  end.
Proof.
  rewrite wasi_format_as_export.
  by destruct (ExportName.wasm_format _ _ _ _ s).
Qed.

(** ** The style setters *)

Lemma read_bytes_exact (h : Heap) p n bs :
  read_bytes h p n = Some bs →
  str_size bs = n
  ∧ (n ≠ 0 → ∃ b, h !! p = Some b ∧ bs = take (Z.to_nat n) b).
Proof.
  unfold read_bytes. intros Hr. case_decide; [by simplify_eq|].
  destruct (h !! p) as [b|]; [|done]. case_decide; [|done]. simplify_eq.
  split; [|by eauto].
  unfold str_size in *. rewrite length_take. lia.
Qed.

(** C5: before [wasm_init] ([g_formatter] null) both setters of both files
    return -1 and leave the whole state as it was; afterwards they return 0
    and the state changes in the handle only, whose style field (primary for
    [wasm_set_style], fallback for [wasm_set_fallback_style]) becomes the
    bytes of the given range, [style_len] of them taken from the block at
    [style], the other field being kept.  A range outside a live block has no
    defined behaviour. *)
Theorem set_style_contract s style style_len :
  WasiBinding.wasm_set_style style style_len s
    = set_style_outcome with_style style (to_size_t style_len) s
  ∧ WasiBinding.wasm_set_fallback_style style style_len s
    = set_style_outcome with_fallback_style style (to_size_t style_len) s
  ∧ ExportName.wasm_set_style style style_len s
    = set_style_outcome with_style style style_len s
  ∧ ExportName.wasm_set_fallback_style style style_len s
    = set_style_outcome with_fallback_style style style_len s
  ∧ (∀ set len, g_formatter s = None →
       set_style_outcome set style len s = Done (-1) s)
  ∧ (∀ set len fmt bs,
       g_formatter s = Some fmt → read_bytes (heap s) style len = Some bs →
       set_style_outcome set style len s
         = Done 0 (upd_g_formatter (Some (set bs fmt)) s)
       ∧ str_size bs = len
       ∧ (len ≠ 0 → ∃ b, heap s !! style = Some b ∧ bs = take (Z.to_nat len) b)
       ∧ primaryStyle (with_style bs fmt) = Some bs
       ∧ fallbackStyle (with_style bs fmt) = fallbackStyle fmt
       ∧ fallbackStyle (with_fallback_style bs fmt) = Some bs
       ∧ primaryStyle (with_fallback_style bs fmt) = primaryStyle fmt).
Proof.
  split; [|split; [|split; [|split; [|split]]]].
  1-4: unfold set_style_outcome; unfold_call;
       destruct (g_formatter s); [|done]; by destruct (read_bytes _ _ _).
  - intros set len Hf. unfold set_style_outcome. by rewrite Hf.
  - intros set len fmt bs Hf Hread.
    split; [unfold set_style_outcome; by rewrite Hf, Hread|].
    apply read_bytes_exact in Hread as [Hsize Hblock]. by repeat split.
Qed.

(** ** Initialisation *)

Lemma run_init_again v n s :
  g_formatter s ≠ None → run v (replicate n Init) s = Done tt s.
Proof.
  intros Hf. induction n as [|n IH]; [done|].
  simpl replicate. rewrite run_cons. simpl step. rewrite wasm_init_done.
  by destruct (g_formatter s).
Qed.

(** C7: [n] calls of [wasm_init] in a row, [n] at least 1, end in the state
    one call ends in.  No call fails; the first one stores a newly
    constructed [ClangFormat] in [g_formatter], and a call that finds the
    singleton constructed changes nothing. *)
Theorem initialize_idempotent v n s :
  (1 ≤ n)%nat →
  run v (replicate n Init) s = wasm_init s
  ∧ (∃ s', wasm_init s = Done tt s' ∧ g_formatter s' ≠ None
           ∧ wasm_init s' = Done tt s')
  ∧ (g_formatter s = None →
     wasm_init s = Done tt (upd_g_formatter (Some ClangFormat_new) s))
  ∧ (g_formatter s ≠ None → wasm_init s = Done tt s).
Proof.
  intros Hn. destruct n as [|n]; [lia|].
  assert (∃ s', wasm_init s = Done tt s' ∧ g_formatter s' ≠ None) as (s' & Hi & Hf').
  { rewrite wasm_init_done. eexists; split; [done|].
    by destruct (g_formatter s) eqn:E; simpl; rewrite ?E. }
  assert (wasm_init s' = Done tt s') as Hi'.
  { rewrite wasm_init_done. by destruct (g_formatter s'). }
  split; [|split; [by eauto|split]].
  - simpl replicate. rewrite run_cons. simpl step. rewrite Hi.
    by apply run_init_again.
  - intros Hf. by rewrite wasm_init_done, Hf.
  - intros Hf. rewrite wasm_init_done. by destruct (g_formatter s).
Qed.

(** ** The result slot *)

Lemma to_int32_small z : 0 ≤ z < 2 ^ 31 → to_int32 z = z.
Proof. intros Hz. unfold to_int32. rewrite Z.mod_small; lia. Qed.

Lemma wasm_free_result_eq s :
  wasm_free_result s
  = if decide (content_ptr (g_last_result s) = nullptr) then Done tt s
    else match heap s !! content_ptr (g_last_result s) with
         | Some _ =>
             Done tt (upd_g_last_result
                        (mkWasmResult (status (g_last_result s)) nullptr 0)
                        (after_release s))
         | None => Crash InvalidFree
         end.
Proof.
  unfold_call. destruct (decide (content_ptr (g_last_result s) ≠ nullptr)) as [Hp|Hp].
  - rewrite !decide_False by done. by destruct (heap s !! _).
  - apply dec_stable in Hp. by rewrite decide_True.
Qed.

Lemma after_store_slot fmt res o s :
  g_last_result (after_store fmt res o s)
  = if decide (result_content res ≠ []) then
      mkWasmResult (status_code (result_status res))
        (malloc_addr (heap s) (str_size (result_content res)))
        (to_int32 (str_size (result_content res)))
    else mkWasmResult (status_code (result_status res)) nullptr 0.
Proof. unfold after_store. by case_decide. Qed.

Lemma step_null_is_empty v o s s' :
  null_is_empty (g_last_result s) → step v o s = Done tt s' →
  null_is_empty (g_last_result s').
Proof.
  intros Hok Hs. destruct o.
  1,2,8,9,10: by (apply step_frame in Hs as [-> _]).
  1,2,3: by (apply step_frame in Hs as ->).
  - apply step_format_inv in Hs
      as [[_ ->]|(fmt & s1 & cs & fs & _ & _ & _ & _ & ->)]; [done|].
    rewrite after_store_slot. case_decide; [|done].
    intros Hp. simpl in Hp. by apply malloc_addr_nonnull in Hp.
  - simpl in Hs. rewrite wasm_free_result_eq in Hs.
    case_decide; [by simplify_eq|].
    destruct (heap s !! _); by simplify_eq.
Qed.

Lemma step_slot_ok v o s s' :
  engine_fits_int32 →
  slot_ok (g_last_result s) → step v o s = Done tt s' →
  slot_ok (g_last_result s').
Proof.
  intros Hfit Hok Hs. destruct o.
  1,2,8,9,10: by (apply step_frame in Hs as [-> _]).
  1,2,3: by (apply step_frame in Hs as ->).
  - apply step_format_inv in Hs
      as [[_ ->]|(fmt & s1 & cs & fs & _ & _ & _ & _ & ->)]; [by split|].
    rewrite after_store_slot. case_decide as Hc; [|by split].
    pose proof (Hfit fmt cs fs) as Hlt.
    pose proof (str_size_nonneg (result_content (ClangFormat_format fmt cs fs).1)).
    assert (str_size (result_content (ClangFormat_format fmt cs fs).1) ≠ 0)
      by (by rewrite str_size_zero).
    split; simpl; rewrite to_int32_small by lia; [lia|done].
  - simpl in Hs. rewrite wasm_free_result_eq in Hs.
    case_decide; [by simplify_eq|].
    destruct (heap s !! _); [|done]. simplify_eq. by split.
Qed.

(** The accessors only read. *)
Lemma accessors_read s :
  wasm_get_result_ptr s = Done (content_ptr (g_last_result s)) s
  ∧ wasm_get_result_len s = Done (content_len (g_last_result s)) s
  ∧ ExportName.wasm_get_result_status s = Done (status (g_last_result s)) s.
Proof. done. Qed.

(** C8: provided the engine's output fits the 32-bit length field, the slot
    invariant ([slot_ok]) holds at program start and after every call; and a
    [wasm_format] call on a constructed singleton, with a live slot buffer
    and valid input ranges, completes with the engine's output [out] stored:
    when [out] is not empty, in a block [malloc] had just handed out (not
    live before, the last allocator call of the log), of the bytes of [out]
    and nothing after them, with [content_len] the size of [out]; when [out]
    is empty, with a null pointer and length 0. *)
Theorem slot_invariant_and_store v :
  engine_fits_int32 →
  slot_ok (g_last_result initial_state)
  ∧ (∀ o s s', slot_ok (g_last_result s) → step v o s = Done tt s' →
               slot_ok (g_last_result s'))
  ∧ (∀ s, slot_ok (g_last_result s) →
          wasm_get_result_ptr s = Done (content_ptr (g_last_result s)) s
          ∧ wasm_get_result_len s = Done (content_len (g_last_result s)) s)
  ∧ (∀ s fmt c cl f fl,
       g_formatter s = Some fmt → slot_live s →
       ∃ s1, release_previous s = Done tt s1
       ∧ ∀ code_str filename_str,
           read_bytes (heap s1) c (arg_len v cl) = Some code_str →
           read_bytes (heap s1) f (arg_len v fl) = Some filename_str →
           ∃ s', step v (Format c cl f fl) s = Done tt s'
           ∧ let out := result_content (ClangFormat_format fmt code_str filename_str).1 in
             let r := g_last_result s' in
             (out ≠ [] →
                content_ptr r ≠ nullptr
                ∧ heap s1 !! content_ptr r = None
                ∧ heap s' !! content_ptr r = Some out
                ∧ content_len r = str_size out
                ∧ trace s' = trace s1 ++ [Malloc (content_ptr r) (str_size out)])
             ∧ (out = [] →
                content_ptr r = nullptr ∧ content_len r = 0
                ∧ heap s' = heap s1 ∧ trace s' = trace s1)).
Proof.
  intros Hfit. split; [by split|]. split; [intros ????; by apply step_slot_ok|].
  split; [done|].
  intros s fmt c cl f fl Hf Hlive.
  assert (∃ s1, release_previous s = Done tt s1) as [s1 Hrel].
  { unfold release_previous. case_decide; [by eauto|].
    destruct Hlive as [?|[b ->]]; [done|by eauto]. }
  exists s1. split; [done|]. intros code_str filename_str Hc Hn.
  exists (after_store fmt (ClangFormat_format fmt code_str filename_str).1
            (ClangFormat_format fmt code_str filename_str).2 s1).
  split.
  - destruct v; simpl in *; unfold void, bind.
    + rewrite wasi_format_as_export, (export_format_init _ _ _ _ _ _ Hf), Hrel, Hc, Hn.
      done.
    + by rewrite (export_format_init _ _ _ _ _ _ Hf), Hrel, Hc, Hn.
  - simpl. unfold after_store. split; intros Hout.
    + rewrite decide_True by done. simpl.
      split; [apply malloc_addr_nonnull|].
      split; [apply malloc_addr_fresh|].
      split; [apply lookup_insert_eq|].
      split; [|done].
      pose proof (Hfit fmt code_str filename_str).
      pose proof (str_size_nonneg (result_content (ClangFormat_format fmt code_str filename_str).1)).
      apply to_int32_small. lia.
    + rewrite decide_False by (by intros []). done.
Qed.

(** C10: in a state a run of calls has reached with [g_formatter] still
    null, the slot has no buffer, so the early return of [wasm_format],
    which overwrites the slot without a [free], overwrites a null pointer and
    touches neither heap nor allocator log.  This rests on two facts about
    every call: a constructed singleton stays constructed, and the pointer of
    the slot becomes a non-null pointer it was not before only in a
    [wasm_format] call on a constructed singleton. *)
Theorem uninitialized_slot_holds_no_buffer v ops s :
  run v ops initial_state = Done tt s →
  g_formatter s = None →
  content_ptr (g_last_result s) = nullptr
  ∧ (∀ c cl f fl, ∃ s',
       step v (Format c cl f fl) s = Done tt s'
       ∧ content_ptr (g_last_result s') = nullptr
       ∧ heap s' = heap s ∧ trace s' = trace s ∧ g_formatter s' = None)
  ∧ (∀ o s1 s2, g_formatter s1 ≠ None → step v o s1 = Done tt s2 →
                g_formatter s2 ≠ None)
  ∧ (∀ o s1 s2, step v o s1 = Done tt s2 →
                content_ptr (g_last_result s2) ≠ nullptr →
                content_ptr (g_last_result s2) ≠ content_ptr (g_last_result s1) →
                g_formatter s1 ≠ None ∧ ∃ c cl f fl, o = Format c cl f fl).
Proof.
  intros Hrun Hf.
  assert (∀ o s1 s2, step v o s1 = Done tt s2 →
            content_ptr (g_last_result s2) ≠ nullptr →
            content_ptr (g_last_result s2) ≠ content_ptr (g_last_result s1) →
            g_formatter s1 ≠ None ∧ ∃ c cl f fl, o = Format c cl f fl) as Hstore.
  { intros o s1 s2 Hs Hnn Hne. destruct o.
    1,2,8,9,10: by (apply step_frame in Hs as [Hs _]; rewrite Hs in Hne).
    1,2,3: by (apply step_frame in Hs; rewrite Hs in Hne).
    - split; [|by eauto].
      apply step_format_inv in Hs as [[_ ->]|(fmt & ? & ? & ? & -> & _)]; done.
    - simpl in Hs. rewrite wasm_free_result_eq in Hs.
      case_decide; [by simplify_eq|]. destruct (heap s1 !! _); by simplify_eq. }
  assert (∀ s, run v ops initial_state = Done tt s → g_formatter s = None →
               content_ptr (g_last_result s) = nullptr) as Hinv.
  { intros s0 Hrun0.
    refine (run_invariant
              (λ s, g_formatter s = None → content_ptr (g_last_result s) = nullptr)
              v _ ops initial_state s0 _ Hrun0); [|done].
    intros o s1 s2 IH Hs Hf2.
    destruct (decide (content_ptr (g_last_result s2) = nullptr)) as [|Hnn]; [done|].
    destruct (decide (content_ptr (g_last_result s2)
                      = content_ptr (g_last_result s1))) as [Heq|Hne].
    - destruct (g_formatter s1) eqn:Hf1.
      + exfalso. eapply step_keeps_init; [|done..]. by rewrite Hf1.
      + rewrite Heq. by apply IH.
    - destruct (Hstore o s1 s2 Hs Hnn Hne) as [Hf1 _].
      exfalso. by eapply step_keeps_init. }
  split; [by apply Hinv|]. split; [|split; [apply step_keeps_init|done]].
  intros c cl f fl. eexists. split.
  - destruct v; simpl; unfold void, bind.
    + by rewrite wasi_format_uninit.
    + by rewrite export_format_uninit.
  - done.
Qed.

(** ** The version string *)

Lemma static_string_eq src s :
  static_string src s
  = let p := malloc_addr (heap s) (str_size src + 1) in
    Done (mkStdString p src)
      (mkState (g_formatter s) (g_last_result s) (version_ver s) (version_len_ver s)
         (<[p := src ++ [Byte.x00]]> (heap s))
         (trace s ++ [Malloc p (str_size src + 1)])).
Proof.
  unfold_call. simpl. rewrite lookup_insert_eq.
  assert (Z.to_nat (str_size src + 1) = length (src ++ [Byte.x00])) as Hlen.
  { rewrite length_app. unfold str_size. simpl. lia. }
  rewrite decide_True.
  2:{ unfold str_size at 3. rewrite length_replicate.
      pose proof (str_size_nonneg src). lia. }
  unfold set_heap, log. simpl.
  rewrite insert_insert_eq, Hlen, firstn_all, drop_ge
    by (rewrite length_replicate; lia).
  by rewrite app_nil_r.
Qed.

Lemma wasm_version_eq s :
  wasm_version s
  = match version_ver s with
    | Some ver => Done (c_str ver) s
    | None =>
        let p := malloc_addr (heap s) (str_size ClangFormat_version + 1) in
        Done p
          (mkState (g_formatter s) (g_last_result s)
             (Some (mkStdString p ClangFormat_version)) (version_len_ver s)
             (<[p := ClangFormat_version ++ [Byte.x00]]> (heap s))
             (trace s ++ [Malloc p (str_size ClangFormat_version + 1)]))
    end.
Proof.
  unfold wasm_version, bind at 1, gets. destruct (version_ver s); [done|].
  unfold bind at 1. by rewrite static_string_eq.
Qed.

Lemma wasm_version_len_eq s :
  wasm_version_len s
  = match version_len_ver s with
    | Some ver => Done (to_int32 (str_size (chars ver))) s
    | None =>
        let p := malloc_addr (heap s) (str_size ClangFormat_version + 1) in
        Done (to_int32 (str_size ClangFormat_version))
          (mkState (g_formatter s) (g_last_result s) (version_ver s)
             (Some (mkStdString p ClangFormat_version))
             (<[p := ClangFormat_version ++ [Byte.x00]]> (heap s))
             (trace s ++ [Malloc p (str_size ClangFormat_version + 1)]))
    end.
Proof.
  unfold wasm_version_len, bind at 1, gets. destruct (version_len_ver s); [done|].
  unfold bind at 1. by rewrite static_string_eq.
Qed.

(** A constructed static stays as constructed. *)
Lemma step_keeps_statics v o s s' :
  step v o s = Done tt s' →
  (∀ ver, version_ver s = Some ver → version_ver s' = Some ver)
  ∧ (∀ ver, version_len_ver s = Some ver → version_len_ver s' = Some ver).
Proof.
  intros Hs. destruct o.
  1-5,7,10:
    try destruct v; unfold_call; simpl in Hs;
    repeat (case_match; simpl in *; try discriminate); by simplify_eq.
  - apply step_format_inv in Hs
      as [[_ ->]|(fmt & s1 & cs & fs & _ & Hrel & _ & _ & ->)]; [done|].
    assert (version_ver s1 = version_ver s ∧ version_len_ver s1 = version_len_ver s)
      as [E1 E2]
      by (apply release_previous_inv in Hrel as [[_ ->]|(_ & _ & ->)]; done).
    unfold after_store. case_decide; simpl; by rewrite E1, E2.
  - simpl in Hs. unfold void, bind in Hs. rewrite wasm_version_eq in Hs.
    destruct (version_ver s) eqn:E; unfold ret in Hs; simpl in Hs; simplify_eq;
      split; intros; simpl; congruence.
  - simpl in Hs. unfold void, bind in Hs. rewrite wasm_version_len_eq in Hs.
    destruct (version_len_ver s) eqn:E; unfold ret in Hs; simpl in Hs; simplify_eq;
      split; intros; simpl; congruence.
Qed.

(** C9: [wasm_version] and [wasm_version_len] never fail.  The first call of
    each constructs its static string from [ClangFormat::version()] (one
    allocation); whatever calls follow, every later call finds the static
    constructed, changes nothing, and returns the same pointer, respectively
    the same length. *)
Theorem version_is_cached v ops s :
  (∃ p s1, wasm_version s = Done p s1
     ∧ (version_ver s = None →
        version_ver s1 = Some (mkStdString p ClangFormat_version)
        ∧ trace s1 = trace s ++ [Malloc p (str_size ClangFormat_version + 1)])
     ∧ ∀ s2, run v ops s1 = Done tt s2 → wasm_version s2 = Done p s2)
  ∧ (∃ n s1, wasm_version_len s = Done n s1
     ∧ (version_len_ver s = None → n = to_int32 (str_size ClangFormat_version))
     ∧ ∀ s2, run v ops s1 = Done tt s2 → wasm_version_len s2 = Done n s2).
Proof.
  split.
  - assert (∃ p s1 ver, wasm_version s = Done p s1
              ∧ version_ver s1 = Some ver ∧ c_str ver = p
              ∧ (version_ver s = None →
                 ver = mkStdString p ClangFormat_version
                 ∧ trace s1 = trace s ++ [Malloc p (str_size ClangFormat_version + 1)]))
      as (p & s1 & ver & Hv & Hver & Hp & Hnew).
    { rewrite wasm_version_eq. destruct (version_ver s) as [ver|] eqn:E.
      - by exists (c_str ver), s, ver.
      - by eexists _, _, _. }
    exists p, s1. split; [done|]. split.
    + intros E. destruct (Hnew E) as [-> ?]. by rewrite Hver.
    + intros s2 Hrun.
      assert (version_ver s2 = Some ver) as E2.
      { refine (run_invariant (λ s, version_ver s = Some ver) v _ ops s1 s2 Hver Hrun).
        intros o sa sb Ha Hs. by apply (step_keeps_statics v o sa sb Hs). }
      by rewrite wasm_version_eq, E2, Hp.
  - assert (∃ n s1 ver, wasm_version_len s = Done n s1
              ∧ version_len_ver s1 = Some ver ∧ to_int32 (str_size (chars ver)) = n
              ∧ (version_len_ver s = None → n = to_int32 (str_size ClangFormat_version)))
      as (n & s1 & ver & Hv & Hver & Hn & Hnew).
    { rewrite wasm_version_len_eq. destruct (version_len_ver s) as [ver|] eqn:E.
      - by exists (to_int32 (str_size (chars ver))), s, ver.
      - by eexists _, _, _. }
    exists n, s1. split; [done|]. split; [done|].
    intros s2 Hrun.
    assert (version_len_ver s2 = Some ver) as E2.
    { refine (run_invariant (λ s, version_len_ver s = Some ver) v _ ops s1 s2 Hver Hrun).
      intros o sa sb Ha Hs. by apply (step_keeps_statics v o sa sb Hs). }
    by rewrite wasm_version_len_eq, E2, Hn.
Qed.

(** ** Release of the previous buffer *)

Lemma replay_app owned t1 t2 :
  replay owned (t1 ++ t2) = replay owned t1 ≫= λ owned1, replay owned1 t2.
Proof.
  revert owned. induction t1 as [|[p n|p] t1 IH]; intros owned; simpl; [done|..];
    case_decide; by rewrite ?IH.
Qed.

Lemma step_format_eq v c cl f fl s :
  step v (Format c cl f fl) s
  = match ExportName.wasm_format c (arg_len v cl) f (arg_len v fl) s with
    | Done _ s' => Done tt s'
    | Crash e => Crash e
    end.
Proof.
  destruct v; simpl; unfold void, bind; [rewrite wasi_format_as_export|];
    by destruct (ExportName.wasm_format _ _ _ _ s).
Qed.

(** One call on a constructed singleton: it completes or stops at an invalid
    input range, and the log grows by the release of the old buffer followed
    by the allocation of the new one. *)
Lemma format_step_release v c cl f fl s :
  slot_live s → g_formatter s ≠ None →
  match step v (Format c cl f fl) s with
  | Done _ s' =>
      (∃ n, trace s' = trace s ++ format_events (content_ptr (g_last_result s))
                                    (content_ptr (g_last_result s')) n)
      ∧ (∃ t, trace s' = trace s ++ t
              ∧ replay (slot_buffers s) t = Some (slot_buffers s'))
      ∧ slot_live s' ∧ g_formatter s' ≠ None
  | Crash e => e = InvalidRead
  end.
Proof.
  intros Hlive Hf. rewrite step_format_eq.
  destruct (g_formatter s) as [fmt|] eqn:Ef; [clear Hf|done].
  rewrite (export_format_init _ _ _ _ _ _ Ef).
  assert (∃ s1, release_previous s = Done tt s1
                ∧ trace s1 = trace s ++ (if decide (content_ptr (g_last_result s) = nullptr)
                                         then [] else [Free (content_ptr (g_last_result s))])
                ∧ replay (slot_buffers s)
                    (if decide (content_ptr (g_last_result s) = nullptr)
                     then [] else [Free (content_ptr (g_last_result s))]) = Some ∅)
    as (s1 & -> & Ht1 & Hr1).
  { unfold release_previous, slot_buffers.
    destruct (decide (content_ptr (g_last_result s) = nullptr)) as [Hp|Hp].
    - exists s. by rewrite app_nil_r.
    - destruct Hlive as [?|[b ->]]; [done|]. eexists. split; [done|]. split; [done|].
      simpl. rewrite decide_True by (by apply elem_of_singleton).
      by rewrite difference_diag_L. }
  destruct (read_bytes _ c _) as [code_str|]; [|done].
  destruct (read_bytes _ f _) as [filename_str|]; [|done].
  set (res := (ClangFormat_format fmt code_str filename_str).1).
  set (o := (ClangFormat_format fmt code_str filename_str).2).
  assert (∃ n, trace (after_store fmt res o s1)
               = trace s1 ++ (if decide (content_ptr (g_last_result (after_store fmt res o s1))
                                         = nullptr)
                              then [] else [Malloc (content_ptr (g_last_result
                                                      (after_store fmt res o s1))) n])
          ∧ replay ∅ (if decide (content_ptr (g_last_result (after_store fmt res o s1))
                                 = nullptr)
                      then [] else [Malloc (content_ptr (g_last_result
                                              (after_store fmt res o s1))) n])
            = Some (slot_buffers (after_store fmt res o s1)))
    as (n & Ht2 & Hr2).
  { exists (str_size (result_content res)). unfold slot_buffers, after_store.
    destruct (decide (result_content res ≠ [])); simpl.
    - pose proof (malloc_addr_nonnull (heap s1) (str_size (result_content res))).
      rewrite !decide_False by done. split; [done|]. simpl.
      rewrite decide_False by apply not_elem_of_empty. by rewrite union_empty_r_L.
    - rewrite ?decide_True by done. split; [by rewrite app_nil_r|done]. }
  split; [|split; [|split]].
  - exists n. unfold format_events. by rewrite Ht2, Ht1, app_assoc.
  - eexists. split; [by rewrite Ht2, Ht1, <- app_assoc|].
    by rewrite replay_app, Hr1.
  - unfold slot_live, after_store.
    destruct (decide (result_content res ≠ [])); simpl; [right|by left].
    rewrite lookup_insert_eq. by eexists.
  - unfold after_store. by destruct (decide (result_content res ≠ [])).
Qed.

(** The buffer of the slot stays a live block as long as the caller does
    not free it. *)
Lemma step_slot_live v o s s' :
  keeps_off_slot o s = true →
  slot_live s → step v o s = Done tt s' → slot_live s'.
Proof.
  intros Hoff Hlive Hs.
  assert (∀ h' : Heap, g_last_result s' = g_last_result s →
            (∀ p, is_Some (heap s !! p) → is_Some (h' !! p)) →
            heap s' = h' → slot_live s') as Hgrow.
  { intros h' Hr Hh Hh'. unfold slot_live. rewrite Hr, Hh'.
    destruct Hlive as [?|?]; [by left|right; by apply Hh]. }
  assert (∀ (q : ptr) (b : list byte) p,
            is_Some (heap s !! p) → is_Some (<[q := b]> (heap s) !! p)) as Hins.
  { intros q b p Hp. apply lookup_insert_is_Some.
    destruct (decide (q = p)); [by left|by right]. }
  assert (∀ p, is_Some (heap s !! p) → is_Some (heap s !! p)) as Hsame by done.
  destruct o.
  - simpl in Hs. unfold_call. simpl in Hs. simplify_eq. (eapply Hgrow; [done| |simpl; reflexivity]; auto).
  - simpl in Hs, Hoff. apply bool_decide_eq_true in Hoff.
    unfold_call. case_decide as Hp; [by simplify_eq|].
    destruct (heap s !! p) eqn:Hl; [|done]. simpl in Hs. simplify_eq.
    destruct Hoff as [?|Hne]; [done|].
    destruct Hlive as [?|Hlive]; [by left|right]. simpl.
    by rewrite lookup_delete_ne.
  - simpl in Hs. rewrite wasm_init_done in Hs. simplify_eq.
    destruct (g_formatter s); [done|]. (eapply Hgrow; [done| |simpl; reflexivity]; auto).
  - destruct v; unfold_call; simpl in Hs;
      repeat (case_match; simpl in *; try discriminate); simplify_eq;
      solve [done | eapply Hgrow; [done| |simpl; reflexivity]; auto].
  - destruct v; unfold_call; simpl in Hs;
      repeat (case_match; simpl in *; try discriminate); simplify_eq;
      solve [done | eapply Hgrow; [done| |simpl; reflexivity]; auto].
  - destruct (g_formatter s) eqn:Hf.
    + pose proof (format_step_release v code code_len filename filename_len s Hlive)
        as Hstep.
      rewrite Hs in Hstep. apply Hstep. by rewrite Hf.
    + apply step_format_inv in Hs as [[_ ->]|(? & ? & ? & ? & ? & _)]; [|congruence].
      by left.
  - simpl in Hs. rewrite wasm_free_result_eq in Hs.
    case_decide; [by simplify_eq|].
    destruct (heap s !! _); [|done]. simplify_eq. by left.
  - simpl in Hs. unfold void, bind in Hs. rewrite wasm_version_eq in Hs.
    destruct (version_ver s); unfold ret in Hs; simplify_eq; [done|].
    (eapply Hgrow; [done| |simpl; reflexivity]; auto).
  - simpl in Hs. unfold void, bind in Hs. rewrite wasm_version_len_eq in Hs.
    destruct (version_len_ver s); unfold ret in Hs; simplify_eq; [done|].
    (eapply Hgrow; [done| |simpl; reflexivity]; auto).
  - simpl in Hs. unfold_call. simpl in Hs.
    destruct (heap s !! p); [|done]. case_decide; [|done]. simpl in Hs.
    simplify_eq. (eapply Hgrow; [done| |simpl; reflexivity]; auto).
Qed.

(** From program start, a caller that respects the ownership rule finds the
    buffer of the slot live. *)
Lemma owner_respected_slot_live v ops s s' :
  owner_respected v ops s = true →
  slot_live s → run v ops s = Done tt s' → slot_live s'.
Proof.
  revert s. induction ops as [|o ops IH]; intros s Hown Hlive Hrun.
  - unfold run, ret in Hrun. by simplify_eq.
  - simpl in Hown. apply andb_prop in Hown as [Hoff Hown].
    rewrite run_cons in Hrun.
    destruct (step v o s) as [[] s1|] eqn:Hs; [|done].
    eapply IH; [done| |done]. by eapply step_slot_live.
Qed.

(** C6: in every state a run of calls from program start has reached, the
    caller having kept to the ownership rule (it never passed the slot's
    buffer to [wasm_dealloc]), [wasm_free_result] completes and leaves
    length 0 and a null pointer; on an empty slot it changes nothing, and a
    second call right after the first changes nothing. *)
Theorem release_result_idempotent v ops s :
  owner_respected v ops initial_state = true →
  run v ops initial_state = Done tt s →
  ∃ s1, wasm_free_result s = Done tt s1
        ∧ wasm_get_result_len s1 = Done 0 s1
        ∧ wasm_get_result_ptr s1 = Done nullptr s1
        ∧ wasm_free_result s1 = Done tt s1
        ∧ (content_ptr (g_last_result s) = nullptr → s1 = s).
Proof.
  intros Hown Hrun.
  assert (slot_live s) as Hlive
    by (apply (owner_respected_slot_live v ops initial_state s); [done|by left|done]).
  assert (null_is_empty (g_last_result s)) as Hne.
  { apply (run_invariant (λ s, null_is_empty (g_last_result s)) v
             (λ o s1 s2, step_null_is_empty v o s1 s2) ops initial_state s);
      [by intros _|done]. }
  rewrite wasm_free_result_eq. case_decide as Hp.
  - exists s. unfold wasm_get_result_len, wasm_get_result_ptr, bind, gets, ret.
    rewrite (Hne Hp), Hp. repeat split.
    rewrite wasm_free_result_eq. by case_decide.
  - destruct Hlive as [?|[b Hb]]; [done|]. rewrite Hb.
    eexists; split; [done|].
    by rewrite wasm_free_result_eq.
Qed.

Lemma release_previous_done s :
  slot_live s →
  ∃ s1, release_previous s = Done tt s1 ∧ heap s1 = heap_after_release s.
Proof.
  intros Hlive. unfold release_previous, heap_after_release. cbv zeta.
  destruct (decide (content_ptr (g_last_result s) = nullptr)); [by eexists|].
  destruct Hlive as [?|[b ->]]; [done|]. by eexists.
Qed.

(** A call on a constructed singleton with valid input ranges completes;
    away from the buffer it stores, the heap it leaves is the heap after the
    release of the previous buffer. *)
Lemma format_step_completes v c cl f fl s :
  slot_live s → g_formatter s ≠ None →
  inputs_readable v (Format c cl f fl) s = true →
  ∃ s', step v (Format c cl f fl) s = Done tt s'
        ∧ ∀ q, q ≠ content_ptr (g_last_result s') →
               heap s' !! q = heap_after_release s !! q.
Proof.
  intros Hlive Hf Hin. simpl in Hin. apply andb_prop in Hin as [Hc Hn].
  apply bool_decide_eq_true in Hc as [code_str Hc], Hn as [filename_str Hn].
  destruct (g_formatter s) as [fmt|] eqn:Ef; [clear Hf|done].
  destruct (release_previous_done s Hlive) as (s1 & Hrel & Hh).
  rewrite <- Hh in *.
  rewrite step_format_eq, (export_format_init _ fmt), Hrel, Hc, Hn by done.
  eexists. split; [done|]. intros q Hq. unfold after_store in *.
  destruct (decide (result_content (ClangFormat_format fmt code_str filename_str).1
                    ≠ [])); simpl in *; [|done].
  by rewrite lookup_insert_ne.
Qed.

(** C1: take a constructed singleton whose slot buffer (if any) is a live
    block.  (1) A run of [wasm_format] calls either completes or stops at an
    input range that is not valid; it never frees a block twice; when it
    completes, replaying the allocator calls it logged against the blocks
    the slot held at the start frees only owned blocks and leaves owned
    exactly what the slot holds at the end.  (2) When every call of the run
    is made with valid input ranges the run does complete, with that log.
    (3) One call with valid input ranges completes; its log is the [free] of
    the buffer the slot held, then the [malloc] of the buffer it holds now,
    and nothing else; and apart from the new buffer the heap is the old heap
    without the old buffer.  (4) Whenever one call completes its log has
    that shape.  (5) The early return on a null [g_formatter] makes no
    allocator call. *)
Theorem format_releases_predecessor_once v ops s :
  only_format ops = true →
  slot_live s →
  g_formatter s ≠ None →
  match run v ops s with
  | Done _ s' =>
      (∃ t, trace s' = trace s ++ t
            ∧ replay (slot_buffers s) t = Some (slot_buffers s'))
      ∧ slot_live s' ∧ g_formatter s' ≠ None
  | Crash e => e = InvalidRead
  end
  ∧ (all_readable v ops s = true →
     ∃ s', run v ops s = Done tt s'
           ∧ (∃ t, trace s' = trace s ++ t
                   ∧ replay (slot_buffers s) t = Some (slot_buffers s'))
           ∧ slot_live s' ∧ g_formatter s' ≠ None)
  ∧ (∀ c cl f fl,
       inputs_readable v (Format c cl f fl) s = true →
       ∃ s' n,
         step v (Format c cl f fl) s = Done tt s'
         ∧ trace s' = trace s ++ format_events (content_ptr (g_last_result s))
                                   (content_ptr (g_last_result s')) n
         ∧ (content_ptr (g_last_result s) ≠ nullptr →
            heap_after_release s !! content_ptr (g_last_result s) = None)
         ∧ (∀ q, q ≠ content_ptr (g_last_result s') →
                 heap s' !! q = heap_after_release s !! q))
  ∧ (∀ c cl f fl s',
       step v (Format c cl f fl) s = Done tt s' →
       ∃ n, trace s' = trace s ++ format_events (content_ptr (g_last_result s))
                                    (content_ptr (g_last_result s')) n)
  ∧ (∀ s0 c cl f fl,
       g_formatter s0 = None →
       ∃ s', step v (Format c cl f fl) s0 = Done tt s'
             ∧ trace s' = trace s0 ∧ heap s' = heap s0).
Proof.
  intros Hops Hlive Hf.
  assert (∀ s, slot_live s → g_formatter s ≠ None →
            match run v ops s with
            | Done _ s' =>
                (∃ t, trace s' = trace s ++ t
                      ∧ replay (slot_buffers s) t = Some (slot_buffers s'))
                ∧ slot_live s' ∧ g_formatter s' ≠ None
            | Crash e => e = InvalidRead
            end) as Hrun.
  { clear s Hlive Hf. induction ops as [|o ops IH]; intros s Hlive Hf.
    + simpl. unfold ret. split; [|done]. exists []. by rewrite app_nil_r.
    + simpl in Hops. apply andb_prop in Hops as [Ho Hops].
      destruct o; try done. rewrite run_cons.
      pose proof (format_step_release v code code_len filename filename_len s Hlive Hf)
        as Hstep.
      destruct (step v _ s) as [[] s1|]; [|done].
      destruct Hstep as (_ & (t1 & Ht1 & Hr1) & Hlive1 & Hf1).
      specialize (IH Hops s1 Hlive1 Hf1).
      destruct (run v ops s1) as [[] s2|]; [|done].
      destruct IH as ((t2 & Ht2 & Hr2) & ? & ?). split; [|done].
      exists (t1 ++ t2). split; [by rewrite Ht2, Ht1, app_assoc|].
      by rewrite replay_app, Hr1. }
  split; [by apply Hrun|]. split; [|split; [|split]].
  - intros Hall.
    assert (∃ s', run v ops s = Done tt s') as [s' Hdone].
    { clear Hrun. revert s Hlive Hf Hall.
      induction ops as [|o ops IH]; intros s Hlive Hf Hall; [by eexists|].
      simpl in Hops. apply andb_prop in Hops as [Ho Hops].
      destruct o; try done.
      simpl in Hall. apply andb_prop in Hall as [Hin Hall].
      destruct (format_step_completes v code code_len filename filename_len s
                  Hlive Hf Hin) as (s1 & Hs & _).
      pose proof (format_step_release v code code_len filename filename_len s Hlive Hf)
        as Hstep.
      rewrite run_cons. simpl step in *. rewrite Hs in *.
      destruct Hstep as (_ & _ & Hlive1 & Hf1). by apply IH. }
    exists s'. split; [done|]. specialize (Hrun s Hlive Hf). by rewrite Hdone in Hrun.
  - intros c cl f fl Hin.
    destruct (format_step_completes v c cl f fl s Hlive Hf Hin) as (s' & Hs & Hheap).
    pose proof (format_step_release v c cl f fl s Hlive Hf) as Hstep.
    rewrite Hs in Hstep. destruct Hstep as ([n Hn] & _).
    exists s', n. split; [done|]. split; [done|]. split; [|done].
    intros Hp. unfold heap_after_release.
    destruct (decide (content_ptr (g_last_result s) = nullptr)); [done|].
    apply lookup_delete_eq.
  - intros c cl f fl s' Hs.
    pose proof (format_step_release v c cl f fl s Hlive Hf) as Hstep.
    rewrite Hs in Hstep. by destruct Hstep as [? _].
  - intros s0 c cl f fl Hf0. eexists. split.
    + by rewrite step_format_eq, export_format_uninit.
    + done.
Qed.

(** ** Status Error and the content of the slot *)

Lemma status_code_error st : status_code st = 1 → st = Error.
Proof. by destruct st. Qed.

(** C3, as amended: when a [wasm_format] call ends with status 1, either it
    was the early return on a null [g_formatter], and the slot is empty
    (length 0, null pointer); or the engine answered [Error], and the slot
    follows the content of that answer: empty when the content is empty,
    and otherwise a buffer of the content's bytes with its length. *)
Theorem error_slot_follows_content v s c cl f fl s' :
  step v (Format c cl f fl) s = Done tt s' →
  status (g_last_result s') = 1 →
  (g_formatter s = None
   ∧ wasm_get_result_len s' = Done 0 s'
   ∧ wasm_get_result_ptr s' = Done nullptr s')
  ∨ (∃ fmt s1 code_str filename_str,
       g_formatter s = Some fmt
       ∧ release_previous s = Done tt s1
       ∧ read_bytes (heap s1) c (arg_len v cl) = Some code_str
       ∧ read_bytes (heap s1) f (arg_len v fl) = Some filename_str
       ∧ let res := (ClangFormat_format fmt code_str filename_str).1 in
         result_status res = Error
         ∧ (result_content res = [] →
            wasm_get_result_len s' = Done 0 s'
            ∧ wasm_get_result_ptr s' = Done nullptr s')
         ∧ (result_content res ≠ [] →
            content_ptr (g_last_result s') ≠ nullptr
            ∧ heap s' !! content_ptr (g_last_result s') = Some (result_content res)
            ∧ content_len (g_last_result s')
              = to_int32 (str_size (result_content res)))).
Proof.
  intros Hs Hst.
  apply step_format_inv in Hs
    as [[Hf ->]|(fmt & s1 & cs & fs & Hf & Hrel & Hc & Hn & ->)]; [by left|right].
  exists fmt, s1, cs, fs. do 4 (split; [done|]). simpl.
  rewrite after_store_slot in Hst.
  split; [apply status_code_error; by case_decide|].
  unfold wasm_get_result_len, wasm_get_result_ptr, bind, gets, ret.
  rewrite after_store_slot. unfold after_store. split; intros Hout.
  - by rewrite !decide_False by (by intros []).
  - rewrite !decide_True by done. simpl.
    split; [apply malloc_addr_nonnull|]. split; [apply lookup_insert_eq|done].
Qed.

End Properties.

(** * The boundary as a caller meets it

    Further properties of the exports: the allocator shim, what a call does
    to memory it does not own, and how the calls compose. *)

(** The call frees, or stores into, the block at [p] by name. *)
Definition names_block (p : ptr) (o : Op) : bool :=
  match o with
  | Dealloc q | HostStore q _ => bool_decide (q = p)
  | _ => false
  end.

(** The call is none of those that replace or release the result, nor one
    that names the block at [p]. *)
Definition keeps_result (p : ptr) (o : Op) : bool :=
  match o with
  | Format _ _ _ _ | FreeResult => false
  | _ => negb (names_block p o)
  end.

Definition is_dealloc (o : Op) : bool :=
  match o with Dealloc _ => true | _ => false end.

(** No call of the sequence is [wasm_dealloc]. *)
Definition no_dealloc (ops : list Op) : bool :=
  forallb (fun o => negb (is_dealloc o)) ops.

(** The call with its lengths as the export-name file takes them. *)
Definition as_size_t (o : Op) : Op :=
  match o with
  | SetStyle p n => SetStyle p (to_size_t n)
  | SetFallbackStyle p n => SetFallbackStyle p (to_size_t n)
  | Format c cl f fl => Format c (to_size_t cl) f (to_size_t fl)
  | _ => o
  end.

(** The three values of the status field. *)
Definition is_status_code (z : Z) : Prop := z = 0 ∨ z = 1 ∨ z = 2.


Section Caller.
Context `{!Engine} `{!Allocator}.
Local Open Scope call_scope.

Ltac open_call :=
  unfold step, void, ExportName.wasm_set_style, WasiBinding.wasm_set_style,
    ExportName.wasm_set_fallback_style, WasiBinding.wasm_set_fallback_style,
    host_store, wasm_alloc, wasm_dealloc, malloc, free, memcpy, std_string,
    set_g_formatter, bind, gets, modify, ret, crash in *.

(** ** Memory the call does not name *)

Lemma release_previous_block s s1 p b :
  release_previous s = Done tt s1 →
  heap s !! p = Some b → p ≠ content_ptr (g_last_result s) →
  heap s1 !! p = Some b.
Proof.
  intros Hrel Hb Hp.
  apply release_previous_inv in Hrel as [[_ ->]|(_ & _ & ->)]; [done|].
  simpl. by rewrite lookup_delete_ne.
Qed.

Lemma after_store_block fmt res o s p b :
  heap s !! p = Some b → heap (after_store fmt res o s) !! p = Some b.
Proof.
  intros Hb. unfold after_store.
  destruct (decide (result_content res ≠ [])); simpl; [|done].
  rewrite lookup_insert_ne; [done|]. intros E.
  pose proof (malloc_addr_fresh (heap s) (str_size (result_content res))) as Hfresh.
  rewrite E in Hfresh. congruence.
Qed.

(** A live block outlives a call that does not name it, with its bytes,
    unless it is the buffer of the slot and the call replaces or releases
    the result. *)
Lemma step_block_kept v o s s' p b :
  step v o s = Done tt s' →
  heap s !! p = Some b →
  names_block p o = false →
  p ≠ content_ptr (g_last_result s) ∨ keeps_result p o = true →
  heap s' !! p = Some b.
Proof.
  intros Hs Hb Hname Hslot.
  assert (∀ q (x : list byte), heap s !! q = None → <[q := x]> (heap s) !! p = Some b)
    as Hfresh.
  { intros q x Hq. rewrite lookup_insert_ne; [done|]. intros ->. congruence. }
  destruct o.
  - simpl in Hs. open_call. simpl in Hs. simplify_eq. simpl.
    apply Hfresh, malloc_addr_fresh.
  - simpl in Hs, Hname. apply bool_decide_eq_false in Hname.
    open_call. case_decide; [by simplify_eq|].
    destruct (heap s !! p0); [|done]. simpl in Hs. simplify_eq. simpl.
    by rewrite lookup_delete_ne.
  - simpl in Hs. rewrite wasm_init_done in Hs. simplify_eq.
    by destruct (g_formatter s).
  - destruct v; open_call; simpl in Hs;
      repeat (case_match; simpl in *; try discriminate); by simplify_eq.
  - destruct v; open_call; simpl in Hs;
      repeat (case_match; simpl in *; try discriminate); by simplify_eq.
  - destruct Hslot as [Hp|?]; [|done].
    apply step_format_inv in Hs
      as [[_ ->]|(fmt & s1 & cs & fs & _ & Hrel & _ & _ & ->)]; [done|].
    apply after_store_block. by eapply release_previous_block.
  - destruct Hslot as [Hp|?]; [|done].
    simpl in Hs. rewrite wasm_free_result_eq in Hs.
    case_decide; [by simplify_eq|].
    destruct (heap s !! content_ptr _); [|done]. simplify_eq. simpl.
    by rewrite lookup_delete_ne.
  - simpl in Hs. unfold void, bind in Hs. rewrite wasm_version_eq in Hs.
    destruct (version_ver s); unfold ret in Hs; simplify_eq; [done|]. simpl.
    apply Hfresh, malloc_addr_fresh.
  - simpl in Hs. unfold void, bind in Hs. rewrite wasm_version_len_eq in Hs.
    destruct (version_len_ver s); unfold ret in Hs; simplify_eq; [done|]. simpl.
    apply Hfresh, malloc_addr_fresh.
  - simpl in Hs, Hname. apply bool_decide_eq_false in Hname.
    open_call. simpl in Hs.
    destruct (heap s !! p0); [|done]. case_decide; [|done]. simpl in Hs.
    simplify_eq. simpl. by rewrite lookup_insert_ne.
Qed.

(** X6: a block the caller owns (live, and not the buffer of the slot) is
    still live, with the same bytes, after any call that does not itself
    free it or store into it: the exports free only the slot's buffer and
    write only into blocks [malloc] has just handed out. *)
Theorem caller_blocks_are_left_alone v o s s' p b :
  step v o s = Done tt s' →
  heap s !! p = Some b →
  p ≠ content_ptr (g_last_result s) →
  names_block p o = false →
  heap s' !! p = Some b.
Proof. intros Hs Hb Hp Hname. eapply step_block_kept; eauto. Qed.

(** X7: the result of a [wasm_format] call stays as it is, slot and buffer
    bytes, through any run of calls that are neither [wasm_format] nor
    [wasm_free_result] and that do not name the buffer ([wasm_dealloc] of
    it, a store of the host into it). *)
Theorem result_outlives_other_calls v ops s s' b :
  forallb (keeps_result (content_ptr (g_last_result s))) ops = true →
  heap s !! content_ptr (g_last_result s) = Some b →
  run v ops s = Done tt s' →
  g_last_result s' = g_last_result s
  ∧ heap s' !! content_ptr (g_last_result s') = Some b.
Proof.
  revert s. induction ops as [|o ops IH]; intros s Hops Hb Hrun.
  - unfold run, ret in Hrun. by simplify_eq.
  - simpl in Hops. apply andb_prop in Hops as [Ho Hops].
    rewrite run_cons in Hrun.
    destruct (step v o s) as [[] s1|] eqn:Hs; [|done].
    assert (g_last_result s1 = g_last_result s) as Hr.
    { pose proof (step_frame v o s s1 Hs) as Hfr.
      destruct o; try done; by destruct Hfr. }
    assert (heap s1 !! content_ptr (g_last_result s) = Some b) as Hb1.
    { eapply step_block_kept; [done|done| |by right].
      destruct o; try done; simpl in Ho |- *; by apply negb_true_iff in Ho. }
    rewrite <- Hr in Hops, Hb1. destruct (IH s1 Hops Hb1 Hrun) as [-> ->].
    by rewrite Hr.
Qed.

(** ** The allocator shim *)

Lemma wasm_dealloc_eq p s :
  wasm_dealloc p s
  = if decide (p = nullptr) then Done tt s
    else match heap s !! p with
         | Some _ =>
             Done tt (mkState (g_formatter s) (g_last_result s) (version_ver s)
                        (version_len_ver s) (delete p (heap s)) (trace s ++ [Free p]))
         | None => Crash InvalidFree
         end.
Proof.
  open_call. case_decide; [done|]. by destruct (heap s !! p).
Qed.

(** X2: [wasm_dealloc] has no guard of its own.  A null pointer is accepted
    and nothing happens; a pointer that was released is no longer a live
    block, and releasing it a second time is an invalid [free]. *)
Theorem dealloc_twice_is_invalid p s s1 :
  p ≠ nullptr →
  wasm_dealloc p s = Done tt s1 →
  heap s1 !! p = None
  ∧ wasm_dealloc p s1 = Crash InvalidFree
  ∧ wasm_dealloc nullptr s1 = Done tt s1.
Proof.
  intros Hp Hd. rewrite wasm_dealloc_eq, decide_False in Hd by done.
  destruct (heap s !! p); [|done]. simplify_eq. simpl.
  split; [apply lookup_delete_eq|]. split.
  - rewrite wasm_dealloc_eq. destruct (decide (p = nullptr)); [done|]. simpl.
    by rewrite lookup_delete_eq.
  - by rewrite wasm_dealloc_eq.
Qed.

(** X3: the slot's buffer belongs to the module.  Once the caller has passed
    it to [wasm_dealloc], the slot still reports the pointer, and the next
    [wasm_free_result], and the next [wasm_format] on a constructed
    singleton, free it a second time. *)
Theorem dealloc_of_result_breaks_release s s1 :
  content_ptr (g_last_result s) ≠ nullptr →
  wasm_dealloc (content_ptr (g_last_result s)) s = Done tt s1 →
  wasm_get_result_ptr s1 = Done (content_ptr (g_last_result s)) s1
  ∧ wasm_free_result s1 = Crash InvalidFree
  ∧ (g_formatter s ≠ None →
     ∀ v c cl f fl, step v (Format c cl f fl) s1 = Crash InvalidFree).
Proof.
  intros Hp Hd. rewrite wasm_dealloc_eq, decide_False in Hd by done.
  destruct (heap s !! content_ptr (g_last_result s)); [|done]. simplify_eq.
  split; [done|]. split.
  - rewrite wasm_free_result_eq. simpl. rewrite decide_False by done.
    by rewrite lookup_delete_eq.
  - intros Hf v c cl f fl. rewrite step_format_eq.
    destruct (g_formatter s) as [fmt|] eqn:Ef; [|done].
    rewrite (export_format_init _ fmt) by done.
    unfold release_previous. simpl. rewrite decide_False by done.
    by rewrite lookup_delete_eq.
Qed.

(** ** Inputs of [wasm_format] *)

Lemma release_previous_live s :
  slot_live s →
  ∃ s1, release_previous s = Done tt s1
        ∧ heap s1 = (if decide (content_ptr (g_last_result s) = nullptr)
                     then heap s
                     else delete (content_ptr (g_last_result s)) (heap s))
        ∧ g_formatter s1 = g_formatter s.
Proof.
  intros Hlive. unfold release_previous.
  destruct (decide (content_ptr (g_last_result s) = nullptr)); [by eexists|].
  destruct Hlive as [?|[b ->]]; [done|]. by eexists.
Qed.

(** X4: [wasm_format] releases the previous result before it copies its
    inputs.  A call on a constructed singleton whose code or file-name
    pointer is the buffer the slot holds, with a length that is not zero,
    reads a block that is gone. *)
Theorem format_of_previous_result_reads_freed_block v s c cl f fl :
  g_formatter s ≠ None →
  slot_live s →
  content_ptr (g_last_result s) ≠ nullptr →
  (c = content_ptr (g_last_result s) ∧ arg_len v cl ≠ 0)
  ∨ (f = content_ptr (g_last_result s) ∧ arg_len v fl ≠ 0) →
  step v (Format c cl f fl) s = Crash InvalidRead.
Proof.
  intros Hf Hlive Hp Halias. rewrite step_format_eq.
  destruct (g_formatter s) as [fmt|] eqn:Ef; [|done].
  rewrite (export_format_init _ fmt) by done.
  destruct (release_previous_live s Hlive) as (s1 & -> & Hh & _).
  rewrite decide_False in Hh by done.
  assert (∀ n, n ≠ 0 → read_bytes (heap s1) (content_ptr (g_last_result s)) n = None)
    as Hgone.
  { intros n Hn. unfold read_bytes. rewrite decide_False by done.
    by rewrite Hh, lookup_delete_eq. }
  destruct Halias as [[-> Hn]|[-> Hn]].
  - by rewrite Hgone.
  - destruct (read_bytes (heap s1) c _); [|done]. by rewrite Hgone.
Qed.

(** X5: a [wasm_format] call on a constructed singleton completes when the
    slot's buffer (if any) is live and each input range lies in a live block
    other than that buffer.  The engine is handed exactly the first
    [code_len] and [filename_len] bytes of the two blocks, the status it
    answers is the status stored, and both input blocks are live and
    unchanged afterwards: the module does not take them over. *)
Theorem format_completes_on_valid_input v s fmt c cl f fl bc bf :
  g_formatter s = Some fmt →
  slot_live s →
  heap s !! c = Some bc → c ≠ content_ptr (g_last_result s) →
  heap s !! f = Some bf → f ≠ content_ptr (g_last_result s) →
  0 ≤ arg_len v cl ≤ str_size bc →
  0 ≤ arg_len v fl ≤ str_size bf →
  ∃ s', step v (Format c cl f fl) s = Done tt s'
        ∧ status (g_last_result s')
          = status_code (result_status
              (ClangFormat_format fmt (take (Z.to_nat (arg_len v cl)) bc)
                                      (take (Z.to_nat (arg_len v fl)) bf)).1)
        ∧ heap s' !! c = Some bc ∧ heap s' !! f = Some bf.
Proof.
  intros Hf Hlive Hc Hcp Hn Hnp Hcl Hfl. rewrite step_format_eq.
  rewrite (export_format_init _ fmt) by done.
  destruct (release_previous_live s Hlive) as (s1 & Hrel & _ & _). rewrite Hrel.
  assert (∀ p n b, heap s !! p = Some b → p ≠ content_ptr (g_last_result s) →
            0 ≤ n ≤ str_size b →
            read_bytes (heap s1) p n = Some (take (Z.to_nat n) b)) as Hread.
  { intros p n b Hb Hp Hle. unfold read_bytes.
    rewrite (release_previous_block s s1 p b) by done.
    case_decide as Hz; [by rewrite Hz|]. by rewrite decide_True. }
  rewrite (Hread c _ bc), (Hread f _ bf) by done.
  eexists. split; [done|]. split.
  - rewrite after_store_slot. by case_decide.
  - split; apply after_store_block; by eapply release_previous_block.
Qed.

(** X10: empty inputs.  With both lengths zero no input byte is read, so the
    call completes whatever the two pointers are (null, dangling, the
    previous result), and the engine is handed two empty strings. *)
Theorem format_of_empty_input_reads_nothing v s fmt c f :
  g_formatter s = Some fmt →
  slot_live s →
  ∃ s', step v (Format c 0 f 0) s = Done tt s'
        ∧ status (g_last_result s')
          = status_code (result_status (ClangFormat_format fmt [] []).1)
        ∧ slot_live s'.
Proof.
  intros Hf Hlive.
  assert (∃ s', step v (Format c 0 f 0) s = Done tt s'
                ∧ status (g_last_result s')
                  = status_code (result_status (ClangFormat_format fmt [] []).1))
    as (s' & Hs & Hst).
  { rewrite step_format_eq, (export_format_init _ fmt) by done.
    destruct (release_previous_live s Hlive) as (s1 & -> & _ & _).
    assert (arg_len v 0 = 0) as -> by (by destruct v).
    unfold read_bytes. simpl. eexists. split; [done|].
    rewrite after_store_slot.
    by destruct (decide (result_content (ClangFormat_format fmt [] []).1 ≠ [])). }
  exists s'. split; [done|]. split; [done|].
  pose proof (format_step_release v c 0 f 0 s Hlive) as Hstep.
  rewrite Hs in Hstep. apply Hstep. by rewrite Hf.
Qed.

(** X15: what a [wasm_format] call on a constructed singleton leaves in the
    slot can be read back: provided the engine's output fits the 32-bit
    length field, the pointer and the length of the slot denote a valid
    range whose bytes are the content the engine answered for the strings
    read from the two input ranges (the empty range when there is none). *)
Theorem format_result_reads_back v s fmt c cl f fl s' :
  engine_fits_int32 →
  g_formatter s = Some fmt →
  step v (Format c cl f fl) s = Done tt s' →
  ∃ s1 code_str filename_str,
    release_previous s = Done tt s1
    ∧ read_bytes (heap s1) c (arg_len v cl) = Some code_str
    ∧ read_bytes (heap s1) f (arg_len v fl) = Some filename_str
    ∧ read_bytes (heap s') (content_ptr (g_last_result s'))
        (content_len (g_last_result s'))
      = Some (result_content (ClangFormat_format fmt code_str filename_str).1).
Proof.
  intros Hfit Hf Hs.
  apply step_format_inv in Hs
    as [[? _]|(fmt' & s1 & cs & fs & Hf' & Hrel & Hc & Hn & ->)]; [congruence|].
  assert (fmt' = fmt) as -> by congruence.
  exists s1, cs, fs. do 3 (split; [done|]).
  pose proof (Hfit fmt cs fs) as Hlt.
  set (out := result_content (ClangFormat_format fmt cs fs).1) in *.
  pose proof (str_size_nonneg out) as Hge.
  rewrite after_store_slot. unfold after_store. fold out.
  destruct (decide (out ≠ [])) as [Hout|Hout]; simpl.
  - rewrite to_int32_small by lia. unfold read_bytes.
    rewrite decide_False by (by rewrite str_size_zero).
    rewrite lookup_insert_eq, decide_True by lia.
    unfold str_size. by rewrite Nat2Z.id, firstn_all.
  - apply dec_stable in Hout. by rewrite Hout.
Qed.

(** ** Calls in sequence *)

(** X8: on a constructed singleton, calling [wasm_free_result] before
    [wasm_format] changes nothing: the two calls in a row have the outcome
    of [wasm_format] alone (same state, or the same fault), because
    [wasm_format] releases the buffer itself and overwrites pointer and
    length. *)
Theorem release_before_format_is_redundant v s c cl f fl :
  g_formatter s ≠ None →
  run v [FreeResult; Format c cl f fl] s = step v (Format c cl f fl) s.
Proof.
  intros Hf. destruct (g_formatter s) as [fmt|] eqn:Ef; [clear Hf|done].
  rewrite run_cons. simpl step at 1. rewrite wasm_free_result_eq.
  assert (∀ s0, run v [Format c cl f fl] s0 = step v (Format c cl f fl) s0) as Hone.
  { intros s0. rewrite run_cons. by destruct (step v _ s0) as [[] ?|]. }
  destruct (decide (content_ptr (g_last_result s) = nullptr)) as [Hp|Hp];
    [apply Hone|].
  rewrite (step_format_eq v c cl f fl s), (export_format_init _ fmt) by done.
  unfold release_previous. cbv zeta.
  destruct (decide (content_ptr (g_last_result s) = nullptr)); [done|].
  destruct (heap s !! content_ptr (g_last_result s)); [|done].
  rewrite Hone, step_format_eq, (export_format_init _ fmt) by done.
  unfold release_previous. cbv zeta. simpl.
  by destruct (decide (nullptr = nullptr)).
Qed.

Lemma step_status_code v o s s' :
  is_status_code (status (g_last_result s)) → step v o s = Done tt s' →
  is_status_code (status (g_last_result s')).
Proof.
  intros Hst Hs. destruct o.
  1,2,8,9,10: by (apply step_frame in Hs as [-> _]).
  1,2,3: by (apply step_frame in Hs as ->).
  - apply step_format_inv in Hs
      as [[_ ->]|(fmt & s1 & cs & fs & _ & _ & _ & _ & ->)];
      [by right; left|].
    rewrite after_store_slot. unfold is_status_code.
    destruct (decide _); simpl; destruct (result_status _); simpl; auto.
  - simpl in Hs. rewrite wasm_free_result_eq in Hs.
    case_decide; [by simplify_eq|].
    destruct (heap s !! _); by simplify_eq.
Qed.

(** X9: in every state a run of calls from program start reaches, the
    status field of the slot is one of the three codes 0 (Success),
    1 (Error), 2 (Unchanged), and that is what the status accessor of the
    export-name file returns. *)
Theorem status_is_one_of_three_codes v ops s :
  run v ops initial_state = Done tt s →
  ∃ st, ExportName.wasm_get_result_status s = Done st s ∧ is_status_code st.
Proof.
  intros Hrun. exists (status (g_last_result s)). split; [done|].
  refine (run_invariant (λ s, is_status_code (status (g_last_result s))) v
            (step_status_code v) ops initial_state s _ Hrun).
  by left.
Qed.


Lemma step_as_size_t o s :
  step wasi_binding o s = step export_name (as_size_t o) s.
Proof. destruct o; try done. simpl as_size_t. by rewrite !step_format_eq. Qed.

(** X12: the two files are one program up to the type of the lengths: any
    sequence of calls run against [wasi_binding.cc] has the outcome (final
    state, or fault) of the same sequence run against the export-name file
    with each [int] length converted to [size_t]. *)
Theorem files_agree_on_every_run ops s :
  run wasi_binding ops s = run export_name (map as_size_t ops) s.
Proof.
  revert s. induction ops as [|o ops IH]; intros s; [done|].
  simpl map. rewrite !run_cons, step_as_size_t.
  destruct (step export_name (as_size_t o) s); [apply IH|done].
Qed.

(** The statics, once constructed, hold the engine's version string. *)
Lemma step_statics_hold_version v o s s' :
  (∀ ver, version_ver s = Some ver → chars ver = ClangFormat_version) →
  (∀ ver, version_len_ver s = Some ver → chars ver = ClangFormat_version) →
  step v o s = Done tt s' →
  (∀ ver, version_ver s' = Some ver → chars ver = ClangFormat_version)
  ∧ (∀ ver, version_len_ver s' = Some ver → chars ver = ClangFormat_version).
Proof.
  intros H1 H2 Hs.
  assert (version_ver s' = version_ver s → version_len_ver s' = version_len_ver s →
          (∀ ver, version_ver s' = Some ver → chars ver = ClangFormat_version)
          ∧ (∀ ver, version_len_ver s' = Some ver → chars ver = ClangFormat_version))
    as Hsame by (by intros -> ->).
  destruct o.
  1-5,7,10: apply Hsame; try destruct v; open_call;
    unfold wasm_init, wasm_free_result, set_content_ptr, set_content_len in *;
    open_call; simpl in Hs;
    repeat (case_match; simpl in *; try discriminate); by simplify_eq.
  - apply step_format_inv in Hs
      as [[_ ->]|(fmt & s1 & cs & fs & _ & Hrel & _ & _ & ->)]; [by apply Hsame|].
    apply release_previous_inv in Hrel as [[_ ->]|(_ & _ & ->)];
      apply Hsame; unfold after_store; by destruct (decide _).
  - simpl in Hs. unfold void, bind in Hs. rewrite wasm_version_eq in Hs.
    destruct (version_ver s) eqn:E; unfold ret in Hs; simplify_eq;
      [split; [intros ver Ev; apply H1; congruence|done]|].
    split; [|done]. simpl. by intros ver [= <-].
  - simpl in Hs. unfold void, bind in Hs. rewrite wasm_version_len_eq in Hs.
    destruct (version_len_ver s) eqn:E; unfold ret in Hs; simplify_eq;
      [split; [done|intros ver Ev; apply H2; congruence]|].
    split; [done|]. simpl. by intros ver [= <-].
Qed.

(** X13: in every state a run of calls from program start reaches,
    [wasm_version_len] completes and returns the size of
    [ClangFormat::version()], whether this is its first call or a later one
    and whether or not [wasm_version] was called before: the two functions
    keep a static string each, both built from the same engine call. *)
Theorem version_len_is_size_of_engine_version v ops s :
  run v ops initial_state = Done tt s →
  ∃ s1, wasm_version_len s = Done (to_int32 (str_size ClangFormat_version)) s1
        ∧ (∀ ver, version_ver s1 = Some ver → chars ver = ClangFormat_version).
Proof.
  intros Hrun.
  assert ((∀ ver, version_ver s = Some ver → chars ver = ClangFormat_version)
          ∧ (∀ ver, version_len_ver s = Some ver → chars ver = ClangFormat_version))
    as [H1 H2].
  { refine (run_invariant
              (λ s, (∀ ver, version_ver s = Some ver → chars ver = ClangFormat_version)
                    ∧ (∀ ver, version_len_ver s = Some ver
                              → chars ver = ClangFormat_version))
              v _ ops initial_state s _ Hrun); [|done].
    intros o sa sb [Ha Hb] Hs. by eapply step_statics_hold_version. }
  rewrite wasm_version_len_eq.
  destruct (version_len_ver s) as [ver|] eqn:E.
  - exists s. by rewrite (H2 ver).
  - by eexists.
Qed.

(** A call other than [wasm_dealloc] on a state whose slot buffer is live
    makes no invalid [free]. *)
Lemma step_frees_validly v o s :
  is_dealloc o = false → slot_live s → step v o s ≠ Crash InvalidFree.
Proof.
  intros Ho Hlive E. destruct o.
  - done.
  - done.
  - simpl in E. by rewrite wasm_init_done in E.
  - destruct v; open_call; simpl in E;
      repeat (case_match; simpl in *; try done); congruence.
  - destruct v; open_call; simpl in E;
      repeat (case_match; simpl in *; try done); congruence.
  - pose proof (format_step_release v code code_len filename filename_len s Hlive)
      as Hstep.
    destruct (g_formatter s) as [fmt|] eqn:Ef.
    + rewrite E in Hstep. by specialize (Hstep ltac:(done)).
    + by rewrite step_format_eq, export_format_uninit in E.
  - simpl in E. rewrite wasm_free_result_eq in E. case_decide; [done|].
    by destruct Hlive as [?|[b Hb]]; [|rewrite Hb in E].
  - simpl in E. unfold void, bind in E. rewrite wasm_version_eq in E.
    by destruct (version_ver s).
  - simpl in E. unfold void, bind in E. rewrite wasm_version_len_eq in E.
    by destruct (version_len_ver s).
  - open_call. simpl in E.
    repeat (case_match; simpl in *; try done); congruence.
Qed.

(** X14: the module's own releases are always of live blocks.  Whatever the
    order of the calls, a run without [wasm_dealloc], started with the
    slot's buffer (if any) live, never faults on a [free]: it completes, or
    stops at an input range or a store that is not valid. *)
Theorem exports_never_free_invalidly v ops s :
  no_dealloc ops = true →
  slot_live s →
  run v ops s ≠ Crash InvalidFree.
Proof.
  revert s. induction ops as [|o ops IH]; intros s Hops Hlive; [done|].
  simpl in Hops. apply andb_prop in Hops as [Ho Hops]. apply negb_true_iff in Ho.
  rewrite run_cons.
  destruct (step v o s) as [[] s1|e] eqn:Hs.
  - apply IH; [done|]. eapply step_slot_live; [|done..]. by destruct o.
  - intros [= ->]. by eapply step_frees_validly.
Qed.

End Caller.

(** * A concrete allocator and a concrete engine

    The theorems above hold for every allocator and every engine.  Here is
    one of each, to run the binding on. *)

(** The allocator that answers the first address that is neither null nor
    the base of a live block; it hands a freed address out again. *)
Definition first_free_addr (h : Heap) (n : Z) : ptr :=
  fresh ({[nullptr]} ∪ dom h).

Lemma first_free_addr_nonnull h n : first_free_addr h n ≠ nullptr.
Proof.
  unfold first_free_addr. intros E.
  pose proof (is_fresh ({[nullptr]} ∪ dom h)) as F. rewrite E in F.
  apply F, elem_of_union_l, elem_of_singleton. reflexivity.
Qed.

Lemma first_free_addr_fresh h n : h !! first_free_addr h n = None.
Proof.
  unfold first_free_addr. apply not_elem_of_dom.
  pose proof (is_fresh ({[nullptr]} ∪ dom h)) as F.
  intros E. apply F, elem_of_union_r, E.
Qed.

#[global] Instance first_free : Allocator := {|
  malloc_addr := first_free_addr;
  malloc_addr_nonnull := first_free_addr_nonnull;
  malloc_addr_fresh := first_free_addr_fresh
|}.

Definition bytes (s : string) : list byte := String.list_byte_of_string s.

Definition is_blank (b : byte) : bool := Byte.eqb b Byte.x20.

Fixpoint strip_blanks (l : list byte) : list byte :=
  match l with
  | b :: l' => if is_blank b then strip_blanks l' else l
  | [] => []
  end.

(** A small engine.  A source that opens with blanks is formatted: the
    blanks go, and at most 80 bytes come back.  A source that opens with a
    closing brace is refused, with a diagnostic as content.  Anything else
    is as it should be.  The engine counts the calls it served. *)
Definition strip_format (f : ClangFormat nat) (code filename : list byte)
    : Result * nat :=
  (match code with
   | [] => mkResult Unchanged []
   | b :: _ =>
       if Byte.eqb b Byte.x7d then mkResult Error (bytes "unbalanced")
       else if is_blank b then mkResult Success (take 80 (strip_blanks code))
       else mkResult Unchanged []
   end, S (engine_state f)).

#[global] Instance strip_engine : Engine := {|
  Opaque := nat;
  ClangFormat_new := mkClangFormat None None 0%nat;
  ClangFormat_format := strip_format;
  ClangFormat_version := bytes "18.1.8"
|}.

Lemma strip_engine_fits_int32 : engine_fits_int32.
Proof.
  intros fmt code filename. simpl. unfold strip_format, str_size. simpl.
  destruct code as [|b code]; [done|].
  destruct (Byte.eqb b Byte.x7d); [done|].
  destruct (is_blank b); [|done].
  simpl. rewrite length_take. lia.
Qed.

(** The state a sequence of calls leads to from program start. *)
Definition state_after (v : Variant) (ops : list Op) : State :=
  match run v ops initial_state with
  | Done _ s => s
  | Crash _ => initial_state
  end.

(** A caller that has initialised the module and placed a source text at
    address 1 and a file name at address 2. *)
Definition prepare : list Op :=
  [Init; Alloc 8; HostStore 1 (bytes "  int x;"); Alloc 5; HostStore 2 (bytes "a.cpp")].

Example prepare_runs :
  run export_name (prepare ++ [Format 1 8 2 5]) initial_state
  = Done tt (state_after export_name (prepare ++ [Format 1 8 2 5]))
  ∧ g_last_result (state_after export_name (prepare ++ [Format 1 8 2 5]))
    = mkWasmResult 0 3 6
  ∧ heap (state_after export_name (prepare ++ [Format 1 8 2 5])) !! 3
    = Some (bytes "int x;").
Proof. vm_compute. done. Qed.

(** ** The theorems at concrete calls *)

(** The state with a formatted result in the slot (block 3, six bytes). *)
Definition formatted : State :=
  state_after export_name (prepare ++ [Format 1 8 2 5]).

(** Two more calls on that state, with the same valid inputs: the run
    completes, and each call frees block 3 and allocates it again. *)
Lemma format_releases_predecessor_once_witness :
  ∃ s', run export_name [Format 1 8 2 5; Format 1 8 2 5] formatted = Done tt s'
        ∧ (∃ t, trace s' = trace formatted ++ t
                ∧ replay (slot_buffers formatted) t = Some (slot_buffers s'))
        ∧ slot_live s' ∧ g_formatter s' ≠ None.
Proof.
  refine (proj1 (proj2 (format_releases_predecessor_once export_name
                          [Format 1 8 2 5; Format 1 8 2 5] formatted _ _ _)) _).
  - reflexivity.
  - right. vm_compute. eexists. reflexivity.
  - vm_compute. discriminate.
  - vm_compute. reflexivity.
Defined.

Example two_formats_trace :
  trace (state_after export_name (prepare ++ [Format 1 8 2 5; Format 1 8 2 5]))
  = [Malloc 1 8; Malloc 2 5; Malloc 3 6; Free 3; Malloc 3 6].
Proof. vm_compute. reflexivity. Qed.

(** A caller that allocates and sets a style but never initialises. *)
Definition no_init : list Op := [Alloc 4; SetStyle 1 4; FreeResult].

Lemma format_before_initialize_witness :
  WasiBinding.wasm_format 1 4 1 0 (state_after wasi_binding no_init)
  = Done 1 (upd_g_last_result (mkWasmResult 1 nullptr 0)
              (state_after wasi_binding no_init)).
Proof.
  refine (proj1 (format_before_initialize wasi_binding no_init
                   (state_after wasi_binding no_init) 1 4 1 0 _ _)).
  - reflexivity.
  - vm_compute. reflexivity.
Defined.

(** A source the engine refuses: a closing brace at address 1. *)
Definition refused : list Op := [Init; Alloc 1; HostStore 1 (bytes "}")].

Example refused_state :
  state_after export_name refused
  = mkState (Some ClangFormat_new) (mkWasmResult 0 nullptr 0) None None
      {[1 := bytes "}"]} [Malloc 1 1].
Proof. vm_compute. reflexivity. Qed.

(** C3 as stated fails: the engine answers [Error] with the ten bytes of
    its diagnostic, and [wasm_format] stores them like any other content;
    the call ends with status 1, length 10 and the buffer at address 2. *)
Lemma error_with_content_counterexample :
  ¬ error_implies_empty_slot export_name (state_after export_name refused) 1 1 1 0.
Proof.
  intros Hc.
  destruct (Hc (state_after export_name (refused ++ [Format 1 1 1 0]))) as [Hlen _].
  - vm_compute. reflexivity.
  - vm_compute. reflexivity.
  - vm_compute in Hlen. discriminate.
Qed.

Example refused_slot :
  g_last_result (state_after export_name (refused ++ [Format 1 1 1 0]))
  = mkWasmResult 1 2 10
  ∧ g_last_result (state_after wasi_binding (refused ++ [Format 1 1 1 0]))
    = mkWasmResult 1 2 10.
Proof. vm_compute. done. Qed.

Lemma release_result_idempotent_witness :
  ∃ s1, wasm_free_result formatted = Done tt s1
        ∧ wasm_get_result_len s1 = Done 0 s1
        ∧ wasm_get_result_ptr s1 = Done nullptr s1
        ∧ wasm_free_result s1 = Done tt s1
        ∧ (content_ptr (g_last_result formatted) = nullptr → s1 = formatted).
Proof.
  refine (release_result_idempotent export_name (prepare ++ [Format 1 8 2 5])
            formatted _ _).
  - vm_compute. reflexivity.
  - vm_compute. reflexivity.
Defined.

Lemma initialize_idempotent_witness :
  run export_name [Init; Init; Init] initial_state = wasm_init initial_state.
Proof.
  refine (proj1 (initialize_idempotent export_name 3 initial_state _)). lia.
Defined.

Lemma slot_invariant_and_store_witness :
  slot_ok (g_last_result formatted).
Proof.
  refine (proj1 (proj2 (slot_invariant_and_store export_name strip_engine_fits_int32))
            (Format 1 8 2 5) (state_after export_name prepare) formatted _ _).
  - split; vm_compute; [congruence|reflexivity].
  - vm_compute. reflexivity.
Defined.

Lemma uninitialized_slot_holds_no_buffer_witness :
  content_ptr (g_last_result (state_after export_name no_init)) = nullptr.
Proof.
  refine (proj1 (uninitialized_slot_holds_no_buffer export_name no_init
                   (state_after export_name no_init) _ _)).
  - vm_compute. reflexivity.
  - vm_compute. reflexivity.
Defined.

Lemma error_slot_follows_content_witness :
  let s := state_after export_name refused in
  let s' := state_after export_name (refused ++ [Format 1 1 1 0]) in
  (g_formatter s = None
   ∧ wasm_get_result_len s' = Done 0 s'
   ∧ wasm_get_result_ptr s' = Done nullptr s')
  ∨ (∃ fmt s1 code_str filename_str,
       g_formatter s = Some fmt
       ∧ release_previous s = Done tt s1
       ∧ read_bytes (heap s1) 1 (arg_len export_name 1) = Some code_str
       ∧ read_bytes (heap s1) 1 (arg_len export_name 0) = Some filename_str
       ∧ let res := (ClangFormat_format fmt code_str filename_str).1 in
         result_status res = Error
         ∧ (result_content res = [] →
            wasm_get_result_len s' = Done 0 s'
            ∧ wasm_get_result_ptr s' = Done nullptr s')
         ∧ (result_content res ≠ [] →
            content_ptr (g_last_result s') ≠ nullptr
            ∧ heap s' !! content_ptr (g_last_result s') = Some (result_content res)
            ∧ content_len (g_last_result s')
              = to_int32 (str_size (result_content res)))).
Proof.
  refine (error_slot_follows_content export_name
            (state_after export_name refused) 1 1 1 0
            (state_after export_name (refused ++ [Format 1 1 1 0])) _ _).
  - vm_compute. reflexivity.
  - vm_compute. reflexivity.
Defined.

(** After [wasm_init], a style name of four bytes at address 1. *)
Definition styled : list Op := [Init; Alloc 4; HostStore 1 (bytes "LLVM")].

Lemma set_style_contract_witness :
  WasiBinding.wasm_set_style 1 4 (state_after wasi_binding styled)
  = Done 0 (upd_g_formatter
              (Some (mkClangFormat (Some (bytes "LLVM")) None 0%nat))
              (state_after wasi_binding styled))
  ∧ WasiBinding.wasm_set_style 1 4 initial_state = Done (-1) initial_state.
Proof.
  destruct (set_style_contract (state_after wasi_binding styled) 1 4)
    as (Hset & _ & _ & _ & _ & Hafter).
  destruct (set_style_contract initial_state 1 4)
    as (Hset0 & _ & _ & _ & Hbefore & _).
  split.
  - rewrite Hset.
    refine (proj1 (Hafter with_style (to_size_t 4) ClangFormat_new (bytes "LLVM") _ _)).
    + vm_compute. reflexivity.
    + vm_compute. reflexivity.
  - rewrite Hset0. apply Hbefore. reflexivity.
Defined.

(** A caller that asks for the version first: the static string takes
    address 1, the source text address 2. *)
Definition after_version : list Op :=
  [Init; Alloc 8; HostStore 2 (bytes "  int x;"); Format 2 8 2 0; Version; FreeResult].

Lemma version_is_cached_witness :
  ∃ p s1, wasm_version initial_state = Done p s1
    ∧ ∀ s2, run export_name after_version s1 = Done tt s2 →
            wasm_version s2 = Done p s2.
Proof.
  destruct (version_is_cached export_name after_version initial_state)
    as [(p & s1 & Hv & _ & Hsame) _].
  exists p, s1. split; [exact Hv|exact Hsame].
Defined.

Example version_twice :
  match wasm_version initial_state with
  | Done p s1 =>
      p = 1 ∧ heap s1 !! 1 = Some (bytes "18.1.8" ++ [Byte.x00])
      ∧ match run export_name after_version s1 with
        | Done _ s2 => wasm_version s2 = Done 1 s2
        | Crash _ => False
        end
  | Crash _ => False
  end.
Proof. vm_compute. done. Qed.

Example conventions_on_formatted :
  WasiBinding.wasm_format 1 8 2 5 formatted
  = Done 0 (state_after export_name (prepare ++ [Format 1 8 2 5; Format 1 8 2 5]))
  ∧ ExportName.wasm_format 1 8 2 5 formatted
    = Done ExportName.addr_g_last_result
        (state_after export_name (prepare ++ [Format 1 8 2 5; Format 1 8 2 5])).
Proof. vm_compute. done. Qed.

(** ** The caller's view at concrete calls *)

Lemma dealloc_twice_is_invalid_witness :
  heap (state_after export_name [Alloc 4; Dealloc 1]) !! 1 = None
  ∧ wasm_dealloc 1 (state_after export_name [Alloc 4; Dealloc 1]) = Crash InvalidFree
  ∧ wasm_dealloc nullptr (state_after export_name [Alloc 4; Dealloc 1])
    = Done tt (state_after export_name [Alloc 4; Dealloc 1]).
Proof.
  refine (dealloc_twice_is_invalid 1 (state_after export_name [Alloc 4])
            (state_after export_name [Alloc 4; Dealloc 1]) _ _).
  - discriminate.
  - vm_compute. reflexivity.
Defined.

(** The caller frees the result buffer (block 3) behind the module's back. *)
Definition result_freed_by_caller : State :=
  state_after export_name (prepare ++ [Format 1 8 2 5; Dealloc 3]).

Lemma dealloc_of_result_breaks_release_witness :
  wasm_get_result_ptr result_freed_by_caller = Done 3 result_freed_by_caller
  ∧ wasm_free_result result_freed_by_caller = Crash InvalidFree.
Proof.
  destruct (dealloc_of_result_breaks_release formatted result_freed_by_caller)
    as (Hptr & Hfree & _).
  - vm_compute. discriminate.
  - vm_compute. reflexivity.
  - split; [exact Hptr|exact Hfree].
Defined.

Lemma format_of_previous_result_reads_freed_block_witness :
  step export_name (Format 3 6 2 5) formatted = Crash InvalidRead.
Proof.
  refine (format_of_previous_result_reads_freed_block export_name formatted
            3 6 2 5 _ _ _ _).
  - vm_compute. discriminate.
  - right. vm_compute. eexists. reflexivity.
  - vm_compute. discriminate.
  - left. split; [vm_compute; reflexivity|vm_compute; discriminate].
Defined.

Lemma format_completes_on_valid_input_witness :
  ∃ s', step export_name (Format 1 8 2 5) (state_after export_name prepare)
        = Done tt s'
        ∧ status (g_last_result s')
          = status_code (result_status
              (ClangFormat_format ClangFormat_new
                 (take (Z.to_nat (arg_len export_name 8)) (bytes "  int x;"))
                 (take (Z.to_nat (arg_len export_name 5)) (bytes "a.cpp"))).1)
        ∧ heap s' !! 1 = Some (bytes "  int x;")
        ∧ heap s' !! 2 = Some (bytes "a.cpp").
Proof.
  refine (format_completes_on_valid_input export_name
            (state_after export_name prepare) ClangFormat_new 1 8 2 5
            (bytes "  int x;") (bytes "a.cpp") _ _ _ _ _ _ _ _).
  - vm_compute. reflexivity.
  - left. vm_compute. reflexivity.
  - vm_compute. reflexivity.
  - vm_compute. discriminate.
  - vm_compute. reflexivity.
  - vm_compute. discriminate.
  - vm_compute. split; discriminate.
  - vm_compute. split; discriminate.
Defined.

Lemma caller_blocks_are_left_alone_witness :
  heap (state_after export_name (prepare ++ [Format 1 8 2 5; Format 1 8 2 5])) !! 1
  = Some (bytes "  int x;").
Proof.
  refine (caller_blocks_are_left_alone export_name (Format 1 8 2 5) formatted
            (state_after export_name (prepare ++ [Format 1 8 2 5; Format 1 8 2 5]))
            1 (bytes "  int x;") _ _ _ _).
  - vm_compute. reflexivity.
  - vm_compute. reflexivity.
  - vm_compute. discriminate.
  - reflexivity.
Defined.

(** Calls that leave the result alone: an allocation, a style, the version,
    a store into the caller's own block. *)
Definition other_calls : list Op :=
  [Alloc 4; SetStyle 2 4; Version; Init; HostStore 1 (bytes "/* */")].

Lemma result_outlives_other_calls_witness :
  g_last_result (state_after export_name (prepare ++ Format 1 8 2 5 :: other_calls))
  = g_last_result formatted
  ∧ heap (state_after export_name (prepare ++ Format 1 8 2 5 :: other_calls))
      !! content_ptr (g_last_result
                        (state_after export_name
                           (prepare ++ Format 1 8 2 5 :: other_calls)))
    = Some (bytes "int x;").
Proof.
  refine (result_outlives_other_calls export_name other_calls formatted
            (state_after export_name (prepare ++ Format 1 8 2 5 :: other_calls))
            (bytes "int x;") _ _ _).
  - vm_compute. reflexivity.
  - vm_compute. reflexivity.
  - vm_compute. reflexivity.
Defined.

Lemma release_before_format_is_redundant_witness :
  run export_name [FreeResult; Format 1 8 2 5] formatted
  = step export_name (Format 1 8 2 5) formatted.
Proof.
  refine (release_before_format_is_redundant export_name formatted 1 8 2 5 _).
  vm_compute. discriminate.
Defined.

Lemma status_is_one_of_three_codes_witness :
  ∃ st, ExportName.wasm_get_result_status
          (state_after export_name (refused ++ [Format 1 1 1 0]))
        = Done st (state_after export_name (refused ++ [Format 1 1 1 0]))
        ∧ is_status_code st.
Proof.
  refine (status_is_one_of_three_codes export_name (refused ++ [Format 1 1 1 0])
            (state_after export_name (refused ++ [Format 1 1 1 0])) _).
  vm_compute. reflexivity.
Defined.

Lemma format_of_empty_input_reads_nothing_witness :
  ∃ s', step wasi_binding (Format nullptr 0 3 0) formatted = Done tt s'
        ∧ status (g_last_result s')
          = status_code (result_status
              (ClangFormat_format (mkClangFormat None None 1%nat) [] []).1)
        ∧ slot_live s'.
Proof.
  refine (format_of_empty_input_reads_nothing wasi_binding formatted
            (mkClangFormat None None 1%nat) nullptr 3 _ _).
  - vm_compute. reflexivity.
  - right. vm_compute. eexists. reflexivity.
Defined.


Lemma version_len_is_size_of_engine_version_witness :
  ∃ s1, wasm_version_len (state_after export_name (prepare ++ [Version; VersionLen]))
        = Done (to_int32 (str_size ClangFormat_version)) s1
        ∧ (∀ ver, version_ver s1 = Some ver → chars ver = ClangFormat_version).
Proof.
  refine (version_len_is_size_of_engine_version export_name
            (prepare ++ [Version; VersionLen])
            (state_after export_name (prepare ++ [Version; VersionLen])) _).
  vm_compute. reflexivity.
Defined.

Lemma exports_never_free_invalidly_witness :
  run export_name
    (prepare ++ [Format 1 8 2 5; FreeResult; FreeResult; Format 1 8 2 5; Version;
                 Format 3 6 2 5])
    initial_state
  ≠ Crash InvalidFree.
Proof.
  refine (exports_never_free_invalidly export_name _ initial_state _ _).
  - reflexivity.
  - left. reflexivity.
Defined.

Lemma format_result_reads_back_witness :
  ∃ s1 code_str filename_str,
    release_previous (state_after export_name prepare) = Done tt s1
    ∧ read_bytes (heap s1) 1 (arg_len export_name 8) = Some code_str
    ∧ read_bytes (heap s1) 2 (arg_len export_name 5) = Some filename_str
    ∧ read_bytes (heap formatted) (content_ptr (g_last_result formatted))
        (content_len (g_last_result formatted))
      = Some (result_content
                (ClangFormat_format ClangFormat_new code_str filename_str).1).
Proof.
  refine (format_result_reads_back export_name (state_after export_name prepare)
            ClangFormat_new 1 8 2 5 formatted strip_engine_fits_int32 _ _).
  - vm_compute. reflexivity.
  - vm_compute. reflexivity.
Defined.

Example reads_back_formatted :
  read_bytes (heap formatted) (content_ptr (g_last_result formatted))
    (content_len (g_last_result formatted))
  = Some (bytes "int x;").
Proof. vm_compute. reflexivity. Qed.
